(** * knowledge-map: the graph merge of [App.tsx] and the gesture handlers of
    [GraphVisualization.tsx]

    A shallow embedding of these pieces of the client:

    - [addToGraph] (App.tsx), the state updater that merges a batch of
      generated items into the graph, with the helpers it calls
      ([getColorForType], [getRandomColor], [NODE_COLORS]);
    - the drag / long-press / click listeners that the "Update Data" effect of
      GraphVisualization.tsx installs on the node elements, with the data
      join that keeps, creates and removes these elements;
    - what [generateExplanation] and [generateRelatedNodes]
      (geminiService.ts) make of the outcome of a request, and the handlers
      [handleSearch], [handleNodeClick] and [handleNodeLongPress] (App.tsx)
      around them;
    - [handleSubmit] (SidePanel.tsx) and the wrapping of a node label
      (GraphVisualization.tsx).

    Conventions of the embedding.

    - A JS [number] is the rational ([Q]) that the double denotes; NaN, the
      infinities and the sign of zero are outside the model.  The arithmetic
      that seeds the position of a new node rounds as IEEE 754 does
      ([round_double]: to the nearest double, ties to even).  An optional
      field [f?: T] is an [option T], [None] standing for [undefined].
    - [String.prototype.toLowerCase] is a parameter of the development: every
      theorem about the merge holds for whatever function folds the case.
      [ascii_toLowerCase] instantiates it on concrete inputs.
    - [Date.now()] and [Math.random()] are read from an environment that gives
      the results of these calls to each iteration of the [forEach] loop.
    - The node objects of [GraphData.nodes] are identified by their slot in the
      array.  The array never lists one object twice: objects enter it through
      [handleSearch] (a one-element array) and through [nextNodes.push] of a
      freshly built literal.  [nodeMap] therefore maps a key to a slot, and the
      in-place assignment [existingNode.explanation = ...] is an update of that
      slot, seen by every later reader of the array and of [nodeMap]. *)

From Stdlib Require Import Ascii QArith Qround Qpower Lqa.
From stdpp Require Import gmap strings list pretty.

Open Scope Z_scope.

(** ** The data model of [types.ts] *)

Module GraphNode.
Record t := mk {
  id : string;
  label : string;
  x : option Q;
  y : option Q;
  fx : option (option Q);          (* number | null, optional *)
  fy : option (option Q);
  group : option Q;
  radius : option Q;
  color : option string;
  explanation : option string
}.
End GraphNode.

(** [source: string | GraphNode]: an edge is created with the ids of its end
    nodes; d3's link force later replaces each id by the node object.  The
    merge reads nothing but the [id] of such an object, and never assigns an
    [id]: [ENode n] gives the fields of the object as they are when the
    updater is called. *)
Inductive Endpoint :=
  | EId (s : string)
  | ENode (n : GraphNode.t).

Module GraphEdge.
Record t := mk {
  source : Endpoint;
  target : Endpoint;
  relation : string;
  color : option string
}.
End GraphEdge.

Record GraphData := mkGraphData {
  nodes : list GraphNode.t;
  edges : list GraphEdge.t
}.

Inductive RelationType := positive | negative | neutral | competitor | hierarchical.

Module GeneratedItem.
Record t := mk {
  label : string;
  relation : string;
  relationType : RelationType;
  explanation : string
}.
End GeneratedItem.

(** The runtime string of a [relationType]. *)
Definition relationType_string (r : RelationType) : string :=
  match r with
  | positive => "positive"
  | negative => "negative"
  | neutral => "neutral"
  | competitor => "competitor"
  | hierarchical => "hierarchical"
  end.

(** ** Helpers of App.tsx *)

Definition getColorForType (type : string) : string :=
  if decide (type = "positive") then "#22c55e"
  else if decide (type = "negative") then "#ef4444"
  else if decide (type = "competitor") then "#f97316"
  else if decide (type = "hierarchical") then "#3b82f6"
  else "#94a3b8".

Definition NODE_COLORS : list string :=
  [ "#ec4899"; "#14b8a6"; "#6366f1"; "#f59e0b"; "#8b5cf6";
    "#f43f5e"; "#0ea5e9"; "#10b981"; "#84cc16"; "#d946ef" ].

(** What one iteration of the loop reads from the outside world: the clock,
    and the results of its [Math.random()] calls (the first one already
    rendered by [.toString(36).substr(2, 9)]). *)
Record Entropy := mkEntropy {
  Date_now : Z;
  random_id36 : string;
  random_x : Q;
  random_y : Q;
  random_color : Q
}.

(** [NODE_COLORS[Math.floor(Math.random() * NODE_COLORS.length)]]; an index
    outside the array reads [undefined].  The product is taken exactly, for
    any rational [r]: its rounding to a double can move the index by one for
    some [r], which colour is picked is therefore the model's only up to
    that. *)
Definition getRandomColor (r : Q) : option string :=
  let k := Qfloor (r * inject_Z (Z.of_nat (length NODE_COLORS))) in
  if (k <? 0)%Z then None else NODE_COLORS !! Z.to_nat k.

(** Truthiness of the values the merge tests. *)
Definition truthy_string (s : string) : bool := negb (bool_decide (s = "")).

Definition truthy_opt_string (s : option string) : bool :=
  match s with
  | Some s => truthy_string s
  | None => false
  end.

Definition truthy_opt_number (v : option Q) : bool :=
  match v with
  | Some q => negb (Qeq_bool q 0)
  | None => false
  end.

(** *** The arithmetic of JS numbers

    A JS number is an IEEE 754 double: 53 significant bits, the exponent of
    the last place not below -1074.  The result of [+], [-] and [*] is the
    exact result rounded to the nearest double, ties going to the double with
    an even significand. *)

(** [2^e], for any integer [e]. *)
Definition pow2 (e : Z) : Q := (2 ^ e)%Q.

(** The nearest integer, ties to even. *)
Definition round_half_even (q : Q) : Z :=
  let f := Qfloor q in
  match (q - inject_Z f ?= 1 # 2)%Q with
  | Lt => f
  | Gt => f + 1
  | Eq => if Z.even f then f else f + 1
  end.

(** For [q > 0], the integer [b] with [2^b <= q < 2^(b+1)]. *)
Definition binade (q : Q) : Z :=
  let k := Z.log2 (Qnum q) - Z.log2 (Zpos (Qden q)) in
  if Qle_bool (pow2 k) q then k else k - 1.

(** The exponent of the last place of the doubles around [q > 0]: 52 below
    the binade for a normal number, -1074 for a subnormal one. *)
Definition ulp_exponent (q : Q) : Z := Z.max (-1074) (binade q - 52).

Definition round_positive (q : Q) : Q :=
  let e := ulp_exponent q in
  (inject_Z (round_half_even (q / pow2 e)) * pow2 e)%Q.

(** The double nearest to [q], as a fraction in lowest terms.  Overflow is
    not modelled: the numbers of this development stay far below 2^1024. *)
Definition round_double (q : Q) : Q :=
  match Qnum q with
  | Z0 => 0%Q
  | Zpos _ => Qred (round_positive q)
  | Zneg _ => Qred (- round_positive (- q))
  end.

(** [a + b], [a - b] and [a * b] on doubles. *)
Definition Number_add (a b : Q) : Q := round_double (a + b).
Definition Number_sub (a b : Q) : Q := round_double (a - b).
Definition Number_mul (a b : Q) : Q := round_double (a * b).

(** [c ? c + (Math.random() - 0.5) * 60 : undefined] *)
Definition seed_coordinate (c : option Q) (r : Q) : option Q :=
  if truthy_opt_number c
  then match c with
       | Some q => Some (Number_add q (Number_mul (Number_sub r (1 # 2)) 60))
       | None => None
       end
  else None.

(** [existingNode.explanation = e] *)
Definition set_explanation (n : GraphNode.t) (e : string) : GraphNode.t :=
  GraphNode.mk (GraphNode.id n) (GraphNode.label n) (GraphNode.x n) (GraphNode.y n)
    (GraphNode.fx n) (GraphNode.fy n) (GraphNode.group n) (GraphNode.radius n)
    (GraphNode.color n) (Some e).

(** [ep === s] for a string [s]: an object is never strictly equal to a
    string. *)
Definition strict_eq (ep : Endpoint) (s : string) : bool :=
  match ep with
  | EId t => bool_decide (t = s)
  | ENode _ => false
  end.

(** [(ep as GraphNode).id === s]: a string has no [id] property, so the read
    gives [undefined], which is not equal to a string. *)
Definition dot_id_eq (ep : Endpoint) (s : string) : bool :=
  match ep with
  | EId _ => false
  | ENode n => bool_decide (GraphNode.id n = s)
  end.

(** The predicate of [nextEdges.some(...)]. *)
Definition edge_matches (sourceId targetNodeId : string) (e : GraphEdge.t) : bool :=
  (strict_eq (GraphEdge.source e) sourceId && strict_eq (GraphEdge.target e) targetNodeId)
  || (strict_eq (GraphEdge.source e) targetNodeId && strict_eq (GraphEdge.target e) sourceId)
  || (dot_id_eq (GraphEdge.source e) sourceId && dot_id_eq (GraphEdge.target e) targetNodeId).

(** ** [addToGraph] *)

(** The locals of the updater: the two copied arrays and the label index. *)
Record MergeState := mkMergeState {
  nextNodes : list GraphNode.t;
  nextEdges : list GraphEdge.t;
  nodeMap : gmap string nat
}.

Section Merge.

Variable toLowerCase : string -> string.

(** [new Map(nextNodes.map(n => [n.label.toLowerCase(), n]))]: the entries
    are inserted in array order, a later entry replacing an earlier one with
    the same key.  [i] is the slot of the head of [ns]. *)
Fixpoint Map_of_nodes (i : nat) (ns : list GraphNode.t) (m : gmap string nat)
  : gmap string nat :=
  match ns with
  | [] => m
  | n :: rest =>
      Map_of_nodes (S i) rest (<[toLowerCase (GraphNode.label n) := i]> m)
  end.

(** The object literal of the [else] branch: the node synthesized for an
    item whose key is not in [nodeMap]. *)
Definition newNode (sourceNode : GraphNode.t) (env : Entropy)
    (item : GeneratedItem.t) : GraphNode.t :=
  GraphNode.mk
    ("n-" +:+ pretty (Date_now env) +:+ "-" +:+ random_id36 env)
    (GeneratedItem.label item)
    (seed_coordinate (GraphNode.x sourceNode) (random_x env))
    (seed_coordinate (GraphNode.y sourceNode) (random_y env))
    None None None None
    (getRandomColor (random_color env))
    (Some (GeneratedItem.explanation item)).

(** Resolution of the target node: the first half of the loop body.  Returns
    the updated arrays and index together with [targetNodeId].  [nodeMap] only
    ever holds slots of [nextNodes] ([index_sound] below), so the [None] result
    stands for no state of the program. *)
Definition resolve_target (sourceNode : GraphNode.t) (env : Entropy)
    (item : GeneratedItem.t) (st : MergeState) : option (MergeState * string) :=
  let itemLabel := GeneratedItem.label item in
  let itemKey := toLowerCase itemLabel in
  match nodeMap st !! itemKey with
  | Some slot =>
      (* nodeMap.has(itemKey) *)
      match nextNodes st !! slot with
      | Some existingNode =>
          let nodes' :=
            if negb (truthy_opt_string (GraphNode.explanation existingNode))
               && truthy_string (GeneratedItem.explanation item)
            then <[slot := set_explanation existingNode (GeneratedItem.explanation item)]>
                   (nextNodes st)
            else nextNodes st in
          Some (mkMergeState nodes' (nextEdges st) (nodeMap st),
                GraphNode.id existingNode)
      | None => None
      end
  | None =>
      let node := newNode sourceNode env item in
      Some (mkMergeState (nextNodes st ++ [node]) (nextEdges st)
              (<[itemKey := length (nextNodes st)]> (nodeMap st)),
            GraphNode.id node)
  end.

(** The second half of the loop body: the edge to the resolved target. *)
Definition add_edge (sourceNode : GraphNode.t) (item : GeneratedItem.t)
    (targetNodeId : string) (st : MergeState) : MergeState :=
  let edgeExists :=
    existsb (edge_matches (GraphNode.id sourceNode) targetNodeId) (nextEdges st) in
  if negb edgeExists && negb (bool_decide (GraphNode.id sourceNode = targetNodeId))
  then mkMergeState (nextNodes st)
         (nextEdges st ++
            [GraphEdge.mk (EId (GraphNode.id sourceNode)) (EId targetNodeId)
               (GeneratedItem.relation item)
               (Some (getColorForType
                        (relationType_string (GeneratedItem.relationType item))))])
         (nodeMap st)
  else st.

(** The callback of [newItems.forEach]. *)
Definition forEach_callback (sourceNode : GraphNode.t) (env : Entropy)
    (item : GeneratedItem.t) (st : MergeState) : MergeState :=
  match resolve_target sourceNode env item st with
  | Some (st', targetNodeId) => add_edge sourceNode item targetNodeId st'
  | None => st
  end.

(** [newItems.forEach(...)], [i] being the index of the head of [items]. *)
Fixpoint forEach (sourceNode : GraphNode.t) (env : nat -> Entropy) (i : nat)
    (items : list GeneratedItem.t) (st : MergeState) : MergeState :=
  match items with
  | [] => st
  | item :: rest =>
      forEach sourceNode env (S i) rest (forEach_callback sourceNode (env i) item st)
  end.

(** The state before the loop. *)
Definition initial_state (prevData : GraphData) : MergeState :=
  mkMergeState (nodes prevData) (edges prevData)
    (Map_of_nodes 0 (nodes prevData) ∅).

(** The function passed to [setData]: from the previous graph to the next. *)
Definition addToGraph (prevData : GraphData) (sourceNode : GraphNode.t)
    (newItems : list GeneratedItem.t) (env : nat -> Entropy) : GraphData :=
  let st := forEach sourceNode env 0 newItems (initial_state prevData) in
  mkGraphData (nextNodes st) (nextEdges st).

(** The key of a node and of an item, and what [nodeMap] is to the array: it
    holds slots of [nextNodes] only, each under the key of the node in it. *)
Definition key (n : GraphNode.t) : string := toLowerCase (GraphNode.label n).

Definition item_key (item : GeneratedItem.t) : string :=
  toLowerCase (GeneratedItem.label item).

Definition index_sound (st : MergeState) : Prop :=
  forall k slot, nodeMap st !! k = Some slot ->
    exists n, nextNodes st !! slot = Some n /\ key n = k.

(** [nodeMap] knows the key of every node of the array, and no other key. *)
Definition index_exact (st : MergeState) : Prop :=
  forall k, is_Some (nodeMap st !! k) <-> k ∈ key <$> nextNodes st.

End Merge.

(** [toLowerCase] on the ASCII letters, for concrete inputs. *)
Definition ascii_lower (c : ascii) : ascii :=
  let n := nat_of_ascii c in
  if ((65 <=? n) && (n <=? 90))%nat then ascii_of_nat (n + 32) else c.

Fixpoint ascii_toLowerCase (s : string) : string :=
  match s with
  | EmptyString => EmptyString
  | String c rest => String (ascii_lower c) (ascii_toLowerCase rest)
  end.

(** ** The gesture listeners of GraphVisualization.tsx

    The "Update Data" effect runs again whenever [data], [activeNodeId],
    [loadingNodeId] or one of the two callbacks changes.  Each run

    - declares fresh [isDragging], [longPressTimer], [longPressTriggered];
    - builds a [dragBehavior] whose listeners use these variables and attaches
      it to the *entering* nodes only ([nodeEnter.call(dragBehavior)]);
    - replaces the click listener of *every* joined node
      ([nodeMerge.on("click", ...)]) by one that reads these variables.

    A node element thus carries the drag listeners of the run in which it
    entered and the click listener of the latest run that found its id in
    the data.  An element whose id has left the data is not removed at once:
    it stays, listeners and all, until its exit transition ends.  The pin of
    the node
    ([d.fx], [d.fy]) and the reheating of the simulation, which the drag
    listeners also perform, touch neither the three variables nor the
    callbacks and are left out. *)

(** The three variables of one run of the effect.  [longPressTimer] holds the
    handle returned by [setTimeout], or [None] for [null]. *)
Record EffectLocals := mkEffectLocals {
  isDragging : bool;
  longPressTimer : option nat;
  longPressTriggered : bool
}.

(** The runs whose variables the listeners of a node element use. *)
Record Listeners := mkListeners {
  drag_run : nat;
  click_run : nat
}.

(** A pending [setTimeout]: its handle, when it is due (ms), and what its
    callback closes over: the variables of a run and the datum [d]. *)
Record Timeout := mkTimeout {
  handle : nat;
  due : Z;
  timeout_run : nat;
  timeout_datum : string
}.

(** Calls of the two props of the component, by node id. *)
Inductive Callback :=
  | onNodeClick (d : string)
  | onNodeLongPress (d : string).

Global Instance Callback_eq_dec : EqDecision Callback.
Proof. solve_decision. Defined.

Record Page := mkPage {
  runs : list EffectLocals;            (* the variables of each run so far *)
  elements : gmap string Listeners;    (* the node elements in the DOM, by datum id *)
  exiting : gset string;               (* the elements in an exit transition *)
  timeouts : list Timeout;             (* pending timers, oldest first *)
  next_handle : nat;
  calls : list Callback                (* callbacks invoked, oldest first *)
}.

(** Nothing drawn yet.  The handles of [setTimeout] are positive. *)
Definition empty_page : Page := mkPage [] ∅ ∅ [] 1%nat [].

Definition with_locals (r : nat) (f : EffectLocals -> EffectLocals) (p : Page) : Page :=
  mkPage (alter f r (runs p)) (elements p) (exiting p) (timeouts p) (next_handle p) (calls p).

(** [clearTimeout(h)] *)
Definition clearTimeout (h : nat) (p : Page) : Page :=
  mkPage (runs p) (elements p) (exiting p)
    (filter (fun tm => handle tm <> h) (timeouts p)) (next_handle p) (calls p).

(** [if (longPressTimer) { clearTimeout(longPressTimer); longPressTimer = null; }] *)
Definition cancel_long_press (r : nat) (p : Page) : Page :=
  match runs p !! r with
  | Some (mkEffectLocals _ (Some h) _) =>
      with_locals r (fun v => mkEffectLocals (isDragging v) None (longPressTriggered v))
        (clearTimeout h p)
  | _ => p
  end.

(** [.on("start", ...)]: reset the two flags, start the 1s timer. *)
Definition on_start (now : Z) (d : string) (r : nat) (p : Page) : Page :=
  let h := next_handle p in
  mkPage (alter (fun _ => mkEffectLocals false (Some h) false) r (runs p))
    (elements p) (exiting p)
    (timeouts p ++ [mkTimeout h (now + 1000) r d])
    (S h) (calls p).

(** [.on("drag", ...)]: any drag event cancels the long press. *)
Definition on_drag (r : nat) (p : Page) : Page :=
  with_locals r (fun v => mkEffectLocals true (longPressTimer v) (longPressTriggered v))
    (cancel_long_press r p).

(** [.on("end", ...)]: clean up the timer if it has not fired yet. *)
Definition on_end (r : nat) (p : Page) : Page := cancel_long_press r p.

(** The callback given to [setTimeout]. *)
Definition on_timeout (tm : Timeout) (p : Page) : Page :=
  let p' := with_locals (timeout_run tm)
              (fun v => mkEffectLocals (isDragging v) (longPressTimer v) true) p in
  mkPage (runs p') (elements p') (exiting p') (timeouts p') (next_handle p')
    (calls p' ++ [onNodeLongPress (timeout_datum tm)]).

(** [nodeMerge.on("click", ...)] *)
Definition on_click (d : string) (r : nat) (p : Page) : Page :=
  match runs p !! r with
  | Some v =>
      if isDragging v || longPressTriggered v then p
      else mkPage (runs p) (elements p) (exiting p) (timeouts p) (next_handle p)
             (calls p ++ [onNodeClick d])
  | None => p
  end.

(** One run of the effect on [data.nodes] with the given ids.  The data join
    ([selectAll(".node-group").data(nodes, d => d.id)]) selects every element
    that is in the DOM, those in an exit transition included:

    - an element whose id is in the data keeps its drag listeners and gets the
      click listener of this run ([nodeMerge.on("click", ...)]); an exit
      transition that runs on it is not interrupted;
    - an id of the data without an element gets a new element
      ([node.enter().append("g")]) with the drag and click listeners of this
      run;
    - an element whose id is not in the data stays in the DOM, with the
      listeners it has, and an exit transition is started on it
      ([node.exit().transition().duration(300).attr("opacity", 0).remove()]). *)
Definition effect_run (ids : list string) (p : Page) : Page :=
  let r := length (runs p) in
  let join (m : gmap string Listeners) (d : string) :=
    match elements p !! d with
    | Some l => <[d := mkListeners (drag_run l) r]> m
    | None => <[d := mkListeners r r]> m
    end in
  mkPage (runs p ++ [mkEffectLocals false None false])
    (foldl join (elements p) ids)
    (exiting p ∪ (dom (elements p) ∖ list_to_set ids))
    (timeouts p) (next_handle p) (calls p).

(** The end of the exit transition of the element of [d]: [.remove()] takes
    the element out of the DOM, with its listeners.  d3 ends the transition
    about 300 ms after the latest run of the effect that found the element in
    the exit selection; the model leaves the time to the trace. *)
Definition on_exit_end (d : string) (p : Page) : Page :=
  if bool_decide (d ∈ exiting p)
  then mkPage (runs p) (delete d (elements p)) (exiting p ∖ {[d]})
         (timeouts p) (next_handle p) (calls p)
  else p.

(** What happens on the page: a run of the effect, the three events of d3's
    drag gesture on a node, a DOM click on a node, and the end of the exit
    transition of a node element. *)
Inductive Event :=
  | Render (ids : list string)
  | DragStart (d : string)
  | Drag (d : string)
  | DragEnd (d : string)
  | Click (d : string)
  | ExitEnd (d : string).

Definition dispatch (now : Z) (ev : Event) (p : Page) : Page :=
  match ev with
  | Render ids => effect_run ids p
  | DragStart d =>
      match elements p !! d with
      | Some l => on_start now d (drag_run l) p
      | None => p
      end
  | Drag d =>
      match elements p !! d with
      | Some l => on_drag (drag_run l) p
      | None => p
      end
  | DragEnd d =>
      match elements p !! d with
      | Some l => on_end (drag_run l) p
      | None => p
      end
  | Click d =>
      match elements p !! d with
      | Some l => on_click d (click_run l) p
      | None => p
      end
  | ExitEnd d => on_exit_end d p
  end.

(** The timers that are due at time [now] fire, oldest first. *)
Definition fire_due (now : Z) (p : Page) : Page :=
  let ready := filter (fun tm => due tm <= now) (timeouts p) in
  let later := filter (fun tm => ~ due tm <= now) (timeouts p) in
  foldl (fun q tm => on_timeout tm q)
    (mkPage (runs p) (elements p) (exiting p) later (next_handle p) (calls p)) ready.

(** The event loop: at the time of an event, the due timers run first. *)
Definition step (p : Page) (tev : Z * Event) : Page :=
  dispatch (fst tev) (snd tev) (fire_due (fst tev) p).

Definition run (trace : list (Z * Event)) (p : Page) : Page := foldl step p trace.

(** How often a callback was invoked between two pages of one execution. *)
Definition invoked (c : Callback) (before after : Page) : nat :=
  (length (filter (fun k => k = c) (calls after))
   - length (filter (fun k => k = c) (calls before)))%nat.

(** ** Vocabulary of the statements *)

(** The id an edge end denotes, in either representation. *)
Definition endpoint_id (ep : Endpoint) : string :=
  match ep with
  | EId s => s
  | ENode n => GraphNode.id n
  end.

Definition node_ids (ns : list GraphNode.t) : list string := GraphNode.id <$> ns.

(** Every end of every edge names a node of the node list. *)
Definition edges_closed (ns : list GraphNode.t) (es : list GraphEdge.t) : Prop :=
  Forall (fun e => endpoint_id (GraphEdge.source e) ∈ node_ids ns
                   /\ endpoint_id (GraphEdge.target e) ∈ node_ids ns) es.

(** The edge joins the ids [a] and [b], in one direction or the other. *)
Definition joins (e : GraphEdge.t) (a b : string) : Prop :=
  (endpoint_id (GraphEdge.source e) = a /\ endpoint_id (GraphEdge.target e) = b)
  \/ (endpoint_id (GraphEdge.source e) = b /\ endpoint_id (GraphEdge.target e) = a).

(** The edge refers to the id [a] at one of its ends. *)
Definition references (e : GraphEdge.t) (a : string) : Prop :=
  endpoint_id (GraphEdge.source e) = a \/ endpoint_id (GraphEdge.target e) = a.

Definition same_pair (e1 e2 : GraphEdge.t) : bool :=
  bool_decide (joins e1 (endpoint_id (GraphEdge.source e2))
                        (endpoint_id (GraphEdge.target e2))).

(** No two edges of the list join the same unordered pair of ids. *)
Fixpoint no_parallel_edges (es : list GraphEdge.t) : bool :=
  match es with
  | [] => true
  | e :: rest => forallb (fun e' => negb (same_pair e e')) rest && no_parallel_edges rest
  end.

(** Both ends of the edge are still ids (d3 has not resolved them). *)
Definition string_ends (e : GraphEdge.t) : bool :=
  match GraphEdge.source e, GraphEdge.target e with
  | EId _, EId _ => true
  | _, _ => false
  end.

(** The cache test of the merge, in the words of the claims: the cached
    explanation is [undefined] or the empty string. *)
Definition no_cached_explanation (n : GraphNode.t) : Prop :=
  GraphNode.explanation n = None \/ GraphNode.explanation n = Some "".

(** What the backfill is claimed to do to the resolved node: take the item's
    explanation exactly when the node has none and the item carries one. *)
Definition backfilled (n : GraphNode.t) (item : GeneratedItem.t) : GraphNode.t :=
  if decide (no_cached_explanation n /\ GeneratedItem.explanation item <> "")
  then set_explanation n (GeneratedItem.explanation item)
  else n.

(** ** Concrete inputs *)

Definition sample_entropy (i : nat) : Entropy :=
  mkEntropy (1700000000000 + Z.of_nat i) "k3j9x0q2a" (1 # 4) (3 # 4) (35 # 100).

Definition plain_node (id label : string) (x y : option Q) (explanation : option string)
  : GraphNode.t :=
  GraphNode.mk id label x y None None None None (Some "#ec4899") explanation.

Definition mk_item (label explanation : string) : GeneratedItem.t :=
  GeneratedItem.mk label "is a type of" hierarchical explanation.

(** The graph after a search for "Octopus", and the answer of the oracle. *)
Definition octopus : GraphNode.t :=
  plain_node "root-1" "Octopus" (Some (400 # 1)) (Some (300 # 1)) (Some "A mollusc.").

Definition octopus_graph : GraphData := mkGraphData [octopus] [].

Definition octopus_items : list GeneratedItem.t :=
  [ mk_item "Cephalopod" "A class of molluscs.";
    mk_item "Mimic Octopus" "";
    mk_item "cephalopod" "Another text." ].

(** A node object that is in no graph. *)
Definition ghost : GraphNode.t :=
  plain_node "ghost" "Ghost" (Some (10 # 1)) (Some (10 # 1)) None.

(** Two nodes joined by an edge beta -> alpha whose ends d3 has resolved to
    the node objects; [alpha] sits on the y axis ([x = 0]). *)
Definition alpha : GraphNode.t :=
  plain_node "a" "Alpha" (Some (0 # 1)) (Some (5 # 1)) None.

Definition beta : GraphNode.t :=
  plain_node "b" "Beta" (Some (120 # 1)) (Some (80 # 1)) (Some "").

Definition resolved_graph : GraphData :=
  mkGraphData [alpha; beta]
    [GraphEdge.mk (ENode beta) (ENode alpha) "leads to" (Some "#94a3b8")].

(** The same graph before d3 has seen the edge. *)
Definition unresolved_graph : GraphData :=
  mkGraphData [alpha; beta]
    [GraphEdge.mk (EId "b") (EId "a") "leads to" (Some "#94a3b8")].

(** Node X is drawn by one run of the effect; node Y enters in the next run
    and is dragged.  Then X is pressed and released 100ms later. *)
Definition drag_elsewhere : list (Z * Event) :=
  [ (0, Render ["X"]);
    (800, Render ["X"; "Y"]);
    (2000, DragStart "Y"); (2050, Drag "Y"); (2300, DragEnd "Y") ].

Definition quick_click : list (Z * Event) :=
  [ (5000, DragStart "X"); (5100, DragEnd "X"); (5100, Click "X") ].

(** Node X is drawn by one run of the effect, and the effect runs once more
    (as it does when [loadingNodeId] goes back to [null]).  Then X is pressed
    and held for 1500ms. *)
Definition drawn_earlier : list (Z * Event) :=
  [ (0, Render ["X"]); (800, Render ["X"]) ].

Definition long_hold : list (Z * Event) :=
  [ (2000, DragStart "X"); (3500, DragEnd "X"); (3500, Click "X") ].

(** Node X is drawn and at once pressed and held.  The long press fires at
    3000; [handleNodeLongPress] sets [loadingNodeId], so that the effect runs
    again while the pointer is still down. *)
Definition drawn_now : list (Z * Event) := [ (0, Render ["X"]) ].

Definition long_hold_with_render : list (Z * Event) :=
  [ (2000, DragStart "X"); (3010, Render ["X"]);
    (3500, DragEnd "X"); (3500, Click "X") ].

(** ** Further vocabulary of the merge *)

(** The two nodes agree on every field but [explanation]. *)
Definition same_but_explanation (n n' : GraphNode.t) : Prop :=
  set_explanation n "" = set_explanation n' "".

(** No edge of the list has the same id at both ends. *)
Definition no_self_loops (es : list GraphEdge.t) : Prop :=
  Forall (fun e => endpoint_id (GraphEdge.source e) <> endpoint_id (GraphEdge.target e)) es.

Section MergeVocabulary.

Variable toLowerCase : string -> string.

(** [nodeMap] is the map that [new Map(...)] builds from the array. *)
Definition index_canonical (st : MergeState) : Prop :=
  nodeMap st = Map_of_nodes toLowerCase 0 (nextNodes st) ∅.

(** Nothing is left to do for the item: its key is in [nodeMap], the backfill
    test fails for the node it resolves to, and the edge test fails too. *)
Definition settled (sourceNode : GraphNode.t) (item : GeneratedItem.t)
    (st : MergeState) : Prop :=
  exists slot n,
    nodeMap st !! item_key toLowerCase item = Some slot
    /\ nextNodes st !! slot = Some n
    /\ negb (truthy_opt_string (GraphNode.explanation n))
       && truthy_string (GeneratedItem.explanation item) = false
    /\ negb (existsb (edge_matches (GraphNode.id sourceNode) (GraphNode.id n))
               (nextEdges st))
       && negb (bool_decide (GraphNode.id sourceNode = GraphNode.id n)) = false.

End MergeVocabulary.

(** ** Further vocabulary of the gestures *)

Definition is_long_press (c : Callback) : bool :=
  match c with
  | onNodeLongPress _ => true
  | onNodeClick _ => false
  end.

Definition is_press (tev : Z * Event) : bool :=
  match snd tev with
  | DragStart _ => true
  | _ => false
  end.

Definition is_click (tev : Z * Event) : bool :=
  match snd tev with
  | Click _ => true
  | _ => false
  end.

(** How often each callback was called. *)
Definition long_press_calls (cs : list Callback) : nat :=
  length (filter (fun c => is_long_press c = true) cs).

Definition click_calls (cs : list Callback) : nat :=
  length (filter (fun c => is_long_press c = false) cs).

(** The presses and the clicks of a trace. *)
Definition presses (trace : list (Z * Event)) : nat :=
  length (filter (fun tev => is_press tev = true) trace).

Definition clicks (trace : list (Z * Event)) : nat :=
  length (filter (fun tev => is_click tev = true) trace).

(** The listeners of a page.  Of every element, the drag listeners are of the
    run of its click listener or of an earlier one; the click listener is the
    one of the latest run unless the element is in an exit transition. *)
Definition listeners_in_order (p : Page) : Prop :=
  forall d l, elements p !! d = Some l ->
    (drag_run l <= click_run l < length (runs p))%nat
    /\ (d ∉ exiting p -> S (click_run l) = length (runs p)).

(** ** The oracle of geminiService.ts

    Only what the two functions do with the outcome of the request is
    modelled; the request itself (prompt, schema, temperature) is not. *)

(** How [await ai.models.generateContent(...)] ends: with a response, whose
    [text] may be [undefined], or with an exception. *)
Inductive ApiResult :=
  | Response (text : option string)
  | Failure.

(** [return response.text || "No explanation available."], and the [catch]. *)
Definition generateExplanation (res : ApiResult) : string :=
  match res with
  | Response (Some text) =>
      if truthy_string text then text else "No explanation available."
  | Response None => "No explanation available."
  | Failure => "Failed to generate explanation."
  end.

Section Oracle.

(** [JSON.parse(text).items]: [None] when the parse (or the property read)
    throws, [Some None] when [items] is missing or falsy, [Some (Some l)] for
    an array. *)
Variable JSON_parse_items : string -> option (option (list GeneratedItem.t)).

Definition generateRelatedNodes (res : ApiResult) : list GeneratedItem.t :=
  match res with
  | Response (Some text) =>
      if truthy_string text
      then match JSON_parse_items text with
           | Some (Some items) => items     (* parsed.items *)
           | Some None => []                (* parsed.items || [] *)
           | None => []                     (* catch *)
           end
      else []
  | Response None => []
  | Failure => []
  end.

(** The ways in which the request for related terms comes to nothing. *)
Definition oracle_failed (res : ApiResult) : Prop :=
  match res with
  | Response (Some text) =>
      text = "" \/ JSON_parse_items text = None \/ JSON_parse_items text = Some None
  | Response None => True
  | Failure => True
  end.

End Oracle.

(** ** The state and the handlers of App.tsx *)

Inductive SearchMode := mode_default | mode_precise.

Module App.
Record t := mk {
  data : GraphData;
  activeNodeId : option string;
  loadingNodeId : option string;
  explanation : option string;
  isLoadingGraph : bool;
  isLoadingExplanation : bool;
  searchMode : SearchMode
}.
End App.

(** The [useState] initial values. *)
Definition App_initial : App.t :=
  App.mk (mkGraphData [] []) None None None false false mode_default.

(** [{ ...n, explanation: e }] *)
Definition with_root_explanation (rootId e : string) (n : GraphNode.t) : GraphNode.t :=
  if bool_decide (GraphNode.id n = rootId) then set_explanation n e else n.

Section Handlers.

Variable toLowerCase : string -> string.
Variable JSON_parse_items : string -> option (option (list GeneratedItem.t)).

(** [handleSearch] up to its [await]: the root node is created and the graph
    is reset to it.  Returns the local [rootNode] and the next state. *)
Definition handleSearch_begin (term : string) (now : Z) (random : Q) (st : App.t)
  : GraphNode.t * App.t :=
  let rootNode :=
    GraphNode.mk ("root-" +:+ pretty now) term None None None None None None
      (getRandomColor random) None in
  (rootNode,
   App.mk (mkGraphData [rootNode] []) (Some (GraphNode.id rootNode))
     (Some (GraphNode.id rootNode)) None true
     (App.isLoadingExplanation st) (App.searchMode st)).

(** [handleSearch] after the [await].  Both promises always fulfil, since
    [generateRelatedNodes] and [generateExplanation] catch what the request
    throws.  [rootNode] is the local object as it is by then (d3 may have
    placed it). *)
Definition handleSearch_settled (rootNode : GraphNode.t)
    (children rootExplanation : ApiResult) (env : nat -> Entropy) (st : App.t) : App.t :=
  let items := generateRelatedNodes JSON_parse_items children in
  let rootExp := generateExplanation rootExplanation in
  let data1 :=
    mkGraphData
      (with_root_explanation (GraphNode.id rootNode) rootExp <$> nodes (App.data st))
      (edges (App.data st)) in
  let data2 :=
    addToGraph toLowerCase data1 (set_explanation rootNode rootExp) items env in
  App.mk data2 (App.activeNodeId st) None (App.explanation st) false
    (App.isLoadingExplanation st) (App.searchMode st).

(** [handleNodeClick] up to its [await], or to its early [return].  The
    boolean says whether the explanation is fetched. *)
Definition handleNodeClick_begin (node : GraphNode.t) (st : App.t) : App.t * bool :=
  match GraphNode.explanation node with
  | Some e =>
      if truthy_string e
      then (App.mk (App.data st) (Some (GraphNode.id node)) (App.loadingNodeId st)
              (Some e) (App.isLoadingGraph st) false (App.searchMode st),
            false)
      else (App.mk (App.data st) (Some (GraphNode.id node)) (App.loadingNodeId st)
              None (App.isLoadingGraph st) true (App.searchMode st),
            true)
  | None =>
      (App.mk (App.data st) (Some (GraphNode.id node)) (App.loadingNodeId st)
         None (App.isLoadingGraph st) true (App.searchMode st),
       true)
  end.

(** [handleNodeClick] after the [await]: the text is cached on the node
    object and shown.  Returns the next state and the node object. *)
Definition handleNodeClick_settled (node : GraphNode.t) (res : ApiResult) (st : App.t)
  : App.t * GraphNode.t :=
  let text := generateExplanation res in
  (App.mk (App.data st) (App.activeNodeId st) (App.loadingNodeId st)
     (Some text) (App.isLoadingGraph st) false (App.searchMode st),
   set_explanation node text).

(** [handleNodeLongPress] up to its [await]. *)
Definition handleNodeLongPress_begin (node : GraphNode.t) (st : App.t) : App.t :=
  App.mk (App.data st) (Some (GraphNode.id node)) (Some (GraphNode.id node))
    (App.explanation st) true (App.isLoadingExplanation st) (App.searchMode st).

(** [handleNodeLongPress] after the [await]; [node] is the node object as it
    is by then. *)
Definition handleNodeLongPress_settled (node : GraphNode.t) (res : ApiResult)
    (env : nat -> Entropy) (st : App.t) : App.t :=
  let items := generateRelatedNodes JSON_parse_items res in
  App.mk (addToGraph toLowerCase (App.data st) node items env)
    (App.activeNodeId st) None (App.explanation st) false
    (App.isLoadingExplanation st) (App.searchMode st).

End Handlers.

(** ** The form of SidePanel.tsx *)

Section Trim.

(** The characters that [String.prototype.trim] removes. *)
Variable WhiteSpace : ascii -> bool.

Fixpoint blank (s : string) : bool :=
  match s with
  | EmptyString => true
  | String c rest => WhiteSpace c && blank rest
  end.

Fixpoint trimStart (s : string) : string :=
  match s with
  | EmptyString => EmptyString
  | String c rest => if WhiteSpace c then trimStart rest else s
  end.

Fixpoint trimEnd (s : string) : string :=
  match s with
  | EmptyString => EmptyString
  | String c rest =>
      match trimEnd rest with
      | EmptyString => if WhiteSpace c then EmptyString else String c EmptyString
      | rest' => String c rest'
      end
  end.

Definition trim (s : string) : string := trimEnd (trimStart s).

(** [handleSubmit]: the term [onSearch] is called with, or [None] when it is
    not called. *)
Definition handleSubmit (inputValue : string) : option string :=
  if truthy_string (trim inputValue) then Some (trim inputValue) else None.

End Trim.

(** The white space of ASCII: tab, line feed, vertical tab, form feed,
    carriage return, space. *)
Definition ascii_WhiteSpace (c : ascii) : bool :=
  let n := nat_of_ascii c in
  ((9 <=? n) && (n <=? 13) || (n =? 32))%nat.

(** ** The label of a node in GraphVisualization.tsx *)

(** [words.join(" ")] *)
Fixpoint join_words (words : list string) : string :=
  match words with
  | [] => ""
  | w :: rest =>
      match rest with
      | [] => w
      | _ => w +:+ " " +:+ join_words rest
      end
  end.

Section Label.

(** [label.split(/\s+/)] *)
Variable split_whitespace : string -> list string.

(** The two [tspan]s of a label of more than one word:
    [words.slice(0, Math.ceil(words.length / 2)).join(" ")] and
    [words.slice(Math.ceil(words.length / 2)).join(" ")]; [None] when the
    text of the label is left as it is. *)
Definition wrap_label (label : string) : option (string * string) :=
  let words := split_whitespace label in
  if (1 <? length words)%nat
  then let half := ((length words + 1) / 2)%nat in
       Some (join_words (take half words), join_words (drop half words))
  else None.

End Label.

(** ** Concrete inputs for the handlers *)

(** A parser that knows two texts. *)
Definition sample_parse (text : string) : option (option (list GeneratedItem.t)) :=
  if bool_decide (text = "octopus-answer") then Some (Some octopus_items)
  else if bool_decide (text = "{}") then Some None
  else None.

(** A search for "Octopus" on the page just opened, and a search for "Squid"
    half a second later, before the first one is answered: each is the local
    root node and the state after the synchronous part of [handleSearch]. *)
Definition octopus_search : GraphNode.t * App.t :=
  handleSearch_begin "Octopus" 1700000000000 (35 # 100) App_initial.

Definition squid_search : GraphNode.t * App.t :=
  handleSearch_begin "Squid" 1700000000500 (35 # 100) (snd octopus_search).

(** * The arithmetic of JS numbers *)

Section Rounding.
Local Open Scope Q_scope.

Lemma pow2_pos e : 0 < pow2 e.
Proof. apply Qpower_0_lt. reflexivity. Qed.

Lemma pow2_le e1 e2 : (e1 <= e2)%Z -> pow2 e1 <= pow2 e2.
Proof. intros H. apply Qpower_le_compat_l; [exact H | discriminate]. Qed.

Lemma pow2_add a b : pow2 (a + b) == pow2 a * pow2 b.
Proof. apply Qpower_plus. discriminate. Qed.

Lemma pow2_Z n : (0 <= n)%Z -> pow2 n == inject_Z (2 ^ n).
Proof. intros H. unfold pow2. by rewrite Zpower_Qpower. Qed.

Lemma Q_num_den (q : Q) : q * inject_Z (Zpos (Qden q)) == inject_Z (Qnum q).
Proof. destruct q as [n d]. unfold Qeq, Qmult, inject_Z; simpl. lia. Qed.

Lemma binade_spec q : 0 < q -> pow2 (binade q) <= q /\ q < pow2 (binade q + 1).
Proof.
  intros Hq. unfold binade.
  assert (0 < Qnum q)%Z as Hn.
  { destruct q as [n d]. unfold Qlt in Hq; simpl in *. lia. }
  set (a := Z.log2 (Qnum q)). set (b := Z.log2 (Zpos (Qden q))).
  destruct (Z.log2_spec (Qnum q) Hn) as [Ha1 Ha2]. fold a in Ha1, Ha2.
  destruct (Z.log2_spec (Zpos (Qden q)) eq_refl) as [Hb1 Hb2]. fold b in Hb1, Hb2.
  assert (0 <= a)%Z as Ha0 by apply Z.log2_nonneg.
  assert (0 <= b)%Z as Hb0 by apply Z.log2_nonneg.
  pose proof (Q_num_den q) as Hnd.
  destruct (Qle_bool (pow2 (a - b)) q) eqn:Hle.
  - split; [by apply Qle_bool_iff|].
    apply (Qmult_lt_r _ _ (pow2 b)); [apply pow2_pos|].
    rewrite <- pow2_add. replace (a - b + 1 + b)%Z with (Z.succ a) by lia.
    apply Qle_lt_trans with (inject_Z (Qnum q)).
    + rewrite <- Hnd. apply Qmult_le_l; [exact Hq|].
      rewrite pow2_Z by done. by rewrite <- Zle_Qle.
    + rewrite pow2_Z by lia. by rewrite <- Zlt_Qlt.
  - split.
    + apply (Qmult_le_r _ _ (pow2 (Z.succ b))); [apply pow2_pos|].
      rewrite <- pow2_add. replace (a - b - 1 + Z.succ b)%Z with a by lia.
      apply Qle_trans with (inject_Z (Qnum q)).
      * rewrite pow2_Z by done. by rewrite <- Zle_Qle.
      * rewrite <- Hnd. apply Qmult_le_l; [exact Hq|].
        rewrite pow2_Z by lia. rewrite <- Zle_Qle. lia.
    + replace (a - b - 1 + 1)%Z with (a - b)%Z by lia.
      apply Qnot_le_lt. intros H. apply Qle_bool_iff in H. congruence.
Qed.

Lemma binade_le q1 q2 : 0 < q1 -> q1 <= q2 -> (binade q1 <= binade q2)%Z.
Proof.
  intros H1 H12.
  assert (0 < q2) as H2 by (eapply Qlt_le_trans; eassumption).
  destruct (binade_spec q1 H1) as [L1 _]. destruct (binade_spec q2 H2) as [_ U2].
  destruct (Z_le_gt_dec (binade q1) (binade q2)) as [?|Hgt]; [done|]. exfalso.
  assert (pow2 (binade q2 + 1) <= pow2 (binade q1)) as Hp by (apply pow2_le; lia).
  apply (Qlt_irrefl q2).
  eapply Qlt_le_trans; [exact U2|]. eapply Qle_trans; [exact Hp|].
  eapply Qle_trans; eassumption.
Qed.

Lemma round_half_even_bounds q :
  (Qfloor q <= round_half_even q <= Qfloor q + 1)%Z.
Proof.
  unfold round_half_even.
  destruct (q - inject_Z (Qfloor q) ?= 1 # 2); [destruct (Z.even _)| |]; lia.
Qed.

Lemma round_half_even_le q1 q2 :
  q1 <= q2 -> (round_half_even q1 <= round_half_even q2)%Z.
Proof.
  intros H. pose proof (Qfloor_resp_le _ _ H) as Hf.
  destruct (Z.eq_dec (Qfloor q1) (Qfloor q2)) as [Heq|Hne].
  - unfold round_half_even. rewrite <- Heq.
    assert (q1 - inject_Z (Qfloor q1) <= q2 - inject_Z (Qfloor q1)) as Hd by lra.
    destruct (q1 - inject_Z (Qfloor q1) ?= 1 # 2) eqn:C1;
      destruct (q2 - inject_Z (Qfloor q1) ?= 1 # 2) eqn:C2;
      try (destruct (Z.even (Qfloor q1))); try lia; exfalso;
      repeat match goal with
             | H : (_ ?= _) = Eq |- _ => apply Qeq_alt in H
             | H : (_ ?= _) = Lt |- _ => apply Qlt_alt in H
             | H : (_ ?= _) = Gt |- _ => apply Qgt_alt in H
             end; lra.
  - pose proof (round_half_even_bounds q1). pose proof (round_half_even_bounds q2). lia.
Qed.

Lemma round_half_even_Z z : round_half_even (inject_Z z) = z.
Proof.
  unfold round_half_even. rewrite Qfloor_Z.
  destruct (inject_Z z - inject_Z z ?= 1 # 2) eqn:C;
    [apply Qeq_alt in C | done | apply Qgt_alt in C]; exfalso; lra.
Qed.

Lemma ulp_exponent_le q1 q2 : 0 < q1 -> q1 <= q2 -> (ulp_exponent q1 <= ulp_exponent q2)%Z.
Proof. intros H1 H2. pose proof (binade_le q1 q2 H1 H2). unfold ulp_exponent. lia. Qed.

Lemma Qdiv_le_compat q1 q2 p : 0 < p -> q1 <= q2 -> q1 / p <= q2 / p.
Proof.
  intros Hp H. apply (Qmult_le_r _ _ p); [exact Hp|].
  assert (~ p == 0) as Hp0 by lra.
  unfold Qdiv. rewrite <- !Qmult_assoc, (Qmult_comm (/ p)), Qmult_inv_r, !Qmult_1_r by done.
  exact H.
Qed.

Lemma round_positive_nonneg q : 0 <= q -> 0 <= round_positive q.
Proof.
  intros Hq. unfold round_positive. apply Qmult_le_0_compat; [|apply Qlt_le_weak, pow2_pos].
  change 0 with (inject_Z 0). rewrite <- Zle_Qle.
  rewrite <- (round_half_even_Z 0). apply round_half_even_le.
  apply Qle_shift_div_l; [apply pow2_pos|]. by rewrite Qmult_0_l.
Qed.

Lemma round_positive_le q1 q2 :
  0 < q1 -> q1 <= q2 -> round_positive q1 <= round_positive q2.
Proof.
  intros H1 H12.
  assert (0 < q2) as H2 by (eapply Qlt_le_trans; eassumption).
  pose proof (ulp_exponent_le q1 q2 H1 H12) as He.
  unfold round_positive.
  set (e1 := ulp_exponent q1) in *. set (e2 := ulp_exponent q2) in *.
  destruct (Z.eq_dec e1 e2) as [Heq|Hne].
  - rewrite <- Heq. apply Qmult_le_compat_r; [|apply Qlt_le_weak, pow2_pos].
    rewrite <- Zle_Qle. apply round_half_even_le.
    apply Qdiv_le_compat; [apply pow2_pos | exact H12].
  - assert (e1 < e2)%Z as Hlt by lia.
    destruct (binade_spec q1 H1) as [_ U1]. destruct (binade_spec q2 H2) as [L2 _].
    assert (e2 = binade q2 - 52)%Z as He2 by (unfold e2, ulp_exponent in *; lia).
    assert (binade q1 - 52 <= e1)%Z as He1 by (unfold e1, ulp_exponent; lia).
    apply Qle_trans with (pow2 (e1 + 53)).
    + rewrite (Z.add_comm e1), pow2_add.
      apply Qmult_le_compat_r; [|apply Qlt_le_weak, pow2_pos].
      rewrite (pow2_Z 53) by lia. rewrite <- Zle_Qle.
      rewrite <- (round_half_even_Z (2 ^ 53)). apply round_half_even_le.
      rewrite <- (pow2_Z 53) by lia.
      apply (Qmult_le_r _ _ (pow2 e1)); [apply pow2_pos|].
      rewrite <- pow2_add.
      assert (~ pow2 e1 == 0) as Hp0 by (pose proof (pow2_pos e1); lra).
      unfold Qdiv. rewrite <- Qmult_assoc, (Qmult_comm (/ _)), Qmult_inv_r, Qmult_1_r by done.
      apply Qlt_le_weak. eapply Qlt_le_trans; [exact U1|]. apply pow2_le. lia.
    + apply Qle_trans with (pow2 (52 + e2)); [apply pow2_le; lia|].
      rewrite pow2_add.
      apply Qmult_le_compat_r; [|apply Qlt_le_weak, pow2_pos].
      rewrite (pow2_Z 52) by lia. rewrite <- Zle_Qle.
      rewrite <- (round_half_even_Z (2 ^ 52)) at 1. apply round_half_even_le.
      rewrite <- (pow2_Z 52) by lia.
      apply (Qmult_le_r _ _ (pow2 e2)); [apply pow2_pos|].
      rewrite <- pow2_add.
      assert (~ pow2 e2 == 0) as Hp0 by (pose proof (pow2_pos e2); lra).
      unfold Qdiv. rewrite <- Qmult_assoc, (Qmult_comm (/ _)), Qmult_inv_r, Qmult_1_r by done.
      eapply Qle_trans; [|exact L2]. apply pow2_le. lia.
Qed.

Lemma Qnum_sign (q : Q) :
  match Qnum q with
  | Z0 => q == 0
  | Zpos _ => 0 < q
  | Zneg _ => q < 0
  end.
Proof. destruct q as [[|n|n] d]; unfold Qeq, Qlt; simpl; lia. Qed.

Lemma round_double_sign (q : Q) :
  match Qnum q with
  | Z0 => round_double q == 0
  | Zpos _ => round_double q == round_positive q /\ 0 <= round_double q
  | Zneg _ => round_double q == - round_positive (- q) /\ round_double q <= 0
  end.
Proof.
  pose proof (Qnum_sign q) as Hs. unfold round_double.
  destruct (Qnum q) eqn:Hn; [reflexivity| |]; rewrite Qred_correct.
  - split; [reflexivity|]. apply round_positive_nonneg. lra.
  - split; [reflexivity|].
    assert (0 <= round_positive (- q)) by (apply round_positive_nonneg; lra). lra.
Qed.

(** Rounding is monotone. *)
Lemma round_double_le q1 q2 : q1 <= q2 -> round_double q1 <= round_double q2.
Proof.
  intros H.
  pose proof (Qnum_sign q1) as S1. pose proof (Qnum_sign q2) as S2.
  pose proof (round_double_sign q1) as R1. pose proof (round_double_sign q2) as R2.
  destruct (Qnum q1), (Qnum q2); try lra.
  - destruct R1 as [-> _], R2 as [-> _]. by apply round_positive_le.
  - destruct R1 as [-> _], R2 as [-> _].
    assert (round_positive (- q2) <= round_positive (- q1))
      by (apply round_positive_le; lra). lra.
Qed.

End Rounding.
(** * Facts about the merge *)

Section MergeFacts.

Variable toLowerCase : string -> string.

Local Abbreviation key := (key toLowerCase).
Local Abbreviation item_key := (item_key toLowerCase).
Local Abbreviation index_sound := (index_sound toLowerCase).
Local Abbreviation index_exact := (index_exact toLowerCase).
Local Abbreviation forEach_callback := (forEach_callback toLowerCase).
Local Abbreviation forEach := (forEach toLowerCase).
Local Abbreviation initial_state := (initial_state toLowerCase).
Local Abbreviation addToGraph := (addToGraph toLowerCase).

(** *** The label index *)

Lemma Map_of_nodes_sound ns : forall pre m,
  (forall k i, m !! k = Some i -> exists n, pre !! i = Some n /\ key n = k) ->
  forall k i, Map_of_nodes toLowerCase (length pre) ns m !! k = Some i ->
    exists n, (pre ++ ns) !! i = Some n /\ key n = k.
Proof.
  induction ns as [|n ns IH]; intros pre m Hm k i; simpl.
  - rewrite app_nil_r. apply Hm.
  - intros Hk.
    replace (pre ++ n :: ns) with ((pre ++ [n]) ++ ns) by (by rewrite <- app_assoc).
    apply (IH (pre ++ [n]) (<[toLowerCase (GraphNode.label n) := length pre]> m)).
    + intros k' i'. rewrite lookup_insert. case_decide as Hd.
      * subst k'. intros [= <-]. exists n. split; [|done].
        by rewrite lookup_app_r, Nat.sub_diag.
      * intros Hm'. destruct (Hm _ _ Hm') as (n' & Hn' & Hk').
        exists n'. split; [|done]. by apply lookup_app_l_Some.
    + rewrite length_app. simpl. by rewrite Nat.add_1_r.
Qed.

Lemma Map_of_nodes_dom ns : forall i m k,
  is_Some (Map_of_nodes toLowerCase i ns m !! k) <->
  is_Some (m !! k) \/ k ∈ key <$> ns.
Proof.
  induction ns as [|n ns IH]; intros i m k; simpl.
  - rewrite elem_of_nil. tauto.
  - rewrite IH, elem_of_cons, lookup_insert_is_Some.
    change (toLowerCase (GraphNode.label n)) with (key n).
    destruct (decide (key n = k)) as [->|Hne]; [tauto|].
    split; intros [H|H]; auto.
    + destruct H as [H|[_ H]]; [done | auto].
    + destruct H as [H|H]; [by symmetry in H | auto].
Qed.

Lemma initial_state_sound g : index_sound (initial_state g).
Proof.
  intros k i Hk. apply (Map_of_nodes_sound (nodes g) [] ∅); [|exact Hk].
  intros k' i'. by rewrite lookup_empty.
Qed.

Lemma initial_state_lookup g k :
  is_Some (nodeMap (initial_state g) !! k) <-> k ∈ key <$> nodes g.
Proof.
  unfold initial_state; simpl. rewrite Map_of_nodes_dom, lookup_empty.
  split; [intros [[? [=]]|]; done | by right].
Qed.

(** *** One iteration of the loop *)

Lemma backfill_test n item :
  negb (truthy_opt_string (GraphNode.explanation n))
  && truthy_string (GeneratedItem.explanation item)
  = bool_decide (no_cached_explanation n /\ GeneratedItem.explanation item <> "").
Proof.
  unfold no_cached_explanation, truthy_opt_string, truthy_string.
  destruct (GraphNode.explanation n) as [e|];
    repeat case_bool_decide; simpl; try reflexivity; exfalso; subst;
    intuition congruence.
Qed.

Lemma backfilled_id n item : GraphNode.id (backfilled n item) = GraphNode.id n.
Proof. unfold backfilled. by case_decide. Qed.

Lemma backfilled_key n item : key (backfilled n item) = key n.
Proof. unfold backfilled. by case_decide. Qed.

(** The two ways an iteration can go, once [nodeMap] is known to be sound. *)
Lemma forEach_callback_cases src env item st :
  index_sound st ->
  (exists slot n,
      nodeMap st !! item_key item = Some slot
      /\ nextNodes st !! slot = Some n
      /\ key n = item_key item
      /\ forEach_callback src env item st
         = add_edge src item (GraphNode.id n)
             (mkMergeState (<[slot := backfilled n item]> (nextNodes st))
                (nextEdges st) (nodeMap st)))
  \/ (nodeMap st !! item_key item = None
      /\ forEach_callback src env item st
         = add_edge src item (GraphNode.id (newNode src env item))
             (mkMergeState (nextNodes st ++ [newNode src env item]) (nextEdges st)
                (<[item_key item := length (nextNodes st)]> (nodeMap st)))).
Proof.
  intros Hs. unfold forEach_callback, resolve_target.
  change (toLowerCase (GeneratedItem.label item)) with (item_key item).
  destruct (nodeMap st !! item_key item) as [slot|] eqn:Hk; [left | right; done].
  destruct (Hs _ _ Hk) as (n & Hn & Hkey).
  exists slot, n. rewrite Hn. repeat split; try done.
  rewrite backfill_test. unfold backfilled.
  case_bool_decide; case_decide; try tauto; try done.
  all: by rewrite list_insert_id.
Qed.


Lemma add_edge_nodes src item tid st :
  nextNodes (add_edge src item tid st) = nextNodes st.
Proof. unfold add_edge. by destruct (_ && _). Qed.

Lemma add_edge_index src item tid st :
  nodeMap (add_edge src item tid st) = nodeMap st.
Proof. unfold add_edge. by destruct (_ && _). Qed.

Lemma add_edge_sound src item tid st :
  index_sound st -> index_sound (add_edge src item tid st).
Proof.
  intros Hs k slot. rewrite add_edge_nodes, add_edge_index. apply Hs.
Qed.

Lemma forEach_callback_sound src env item st :
  index_sound st -> index_sound (forEach_callback src env item st).
Proof.
  intros Hs.
  destruct (forEach_callback_cases src env item st Hs)
    as [(slot & n & Hk & Hn & Hkey & ->) | [Hk ->]];
    apply add_edge_sound; intros k i; simpl.
  - intros Hi. destruct (Hs _ _ Hi) as (n' & Hn' & Hk').
    destruct (decide (i = slot)) as [->|Hne].
    + exists (backfilled n item). split.
      * apply list_lookup_insert_eq. by eapply lookup_lt_Some.
      * rewrite backfilled_key. congruence.
    + exists n'. by rewrite list_lookup_insert_ne.
  - rewrite lookup_insert. case_decide as Hd.
    + subst k. intros [= <-]. exists (newNode src env item). split; [|done].
      by rewrite lookup_app_r, Nat.sub_diag.
    + intros Hi. destruct (Hs _ _ Hi) as (n' & Hn' & Hk').
      exists n'. split; [|done]. by apply lookup_app_l_Some.
Qed.

Lemma forEach_sound src env items : forall i st,
  index_sound st -> index_sound (forEach src env i items st).
Proof.
  induction items as [|item items IH]; intros i st Hs; simpl; [done|].
  by apply IH, forEach_callback_sound.
Qed.

Lemma forEach_app src env pre post : forall i st,
  forEach src env i (pre ++ post) st
  = forEach src env (i + length pre) post (forEach src env i pre st).
Proof.
  induction pre as [|item pre IH]; intros i st; simpl.
  - by rewrite Nat.add_0_r.
  - rewrite IH. f_equal. lia.
Qed.

(** *** Counting the nodes *)

Lemma length_remove_dups (l : list string) :
  length (remove_dups l) = size (list_to_set (C := gset string) l).
Proof.
  rewrite <- (size_list_to_set (C := gset string)) by apply NoDup_remove_dups.
  f_equal. apply set_eq. intros k.
  by rewrite !elem_of_list_to_set, elem_of_remove_dups.
Qed.

Lemma distinct_cons (k : string) (l : list string) :
  length (remove_dups (k :: l))
  = S (length (remove_dups (filter (fun k' => k' <> k) l))).
Proof.
  rewrite !length_remove_dups, list_to_set_cons.
  assert ({[k]} ∪ list_to_set l
          = ({[k]} : gset string) ∪ list_to_set (filter (fun k' => k' <> k) l)) as ->.
  { apply set_eq. intros k'.
    rewrite !elem_of_union, !elem_of_list_to_set, list_elem_of_filter, elem_of_singleton.
    destruct (decide (k' = k)); tauto. }
  rewrite size_union, size_singleton; [done|].
  intros k'. rewrite elem_of_singleton, elem_of_list_to_set, list_elem_of_filter.
  tauto.
Qed.

Lemma forEach_callback_length src env item st :
  length (nextNodes (forEach_callback src env item st))
  = (length (nextNodes st)
     + if decide (nodeMap st !! item_key item = None) then 1 else 0)%nat.
Proof.
  unfold forEach_callback, resolve_target.
  change (toLowerCase (GeneratedItem.label item)) with (item_key item).
  destruct (nodeMap st !! item_key item) as [slot|]; simpl.
  - destruct (nextNodes st !! slot); simpl; [|lia].
    rewrite add_edge_nodes; simpl. destruct (_ && _); rewrite ?length_insert; lia.
  - rewrite add_edge_nodes; simpl. by rewrite length_app.
Qed.

Lemma forEach_callback_index src env item st k :
  nodeMap (forEach_callback src env item st) !! k = None
  <-> nodeMap st !! k = None /\ (nodeMap st !! item_key item = None -> k <> item_key item).
Proof.
  unfold forEach_callback, resolve_target.
  change (toLowerCase (GeneratedItem.label item)) with (item_key item).
  destruct (nodeMap st !! item_key item) as [slot|] eqn:Hk; simpl.
  - destruct (nextNodes st !! slot); simpl; rewrite ?add_edge_index; simpl;
      split; try tauto; intros H; (split; [done|congruence]).
  - rewrite add_edge_index; simpl. rewrite lookup_insert_None.
    split.
    + intros [Hm Hne]. split; [done|]. intros _ ->. by apply Hne.
    + intros [Hm H]. split; [done|]. intros Heq. by apply H.
Qed.

Lemma forEach_length src env items : forall i st,
  length (nextNodes (forEach src env i items st))
  = (length (nextNodes st)
     + length (remove_dups
                 (filter (fun k => nodeMap st !! k = None) (item_key <$> items))))%nat.
Proof.
  induction items as [|item items IH]; intros i st; simpl; [lia|].
  rewrite IH, forEach_callback_length.
  rewrite (list_filter_iff _ (fun k => (nodeMap st !! item_key item = None -> k <> item_key item)
                                       /\ nodeMap st !! k = None))
    by (intros k; rewrite forEach_callback_index; tauto).
  rewrite <- list_filter_filter, filter_cons.
  destruct (decide (nodeMap st !! item_key item = None)) as [Hk|Hk].
  - rewrite distinct_cons.
    rewrite (list_filter_iff (fun k => nodeMap st !! item_key item = None -> k <> item_key item)
               (fun k => k <> item_key item)) by (intros k; tauto).
    rewrite <- Nat.add_assoc. reflexivity.
  - rewrite list_filter_filter_r by (intros k _ ?; done).
    rewrite Nat.add_0_r. reflexivity.
Qed.


(** *** Node ids and keys along the loop *)

Lemma node_ids_backfill (ns : list GraphNode.t) (slot : nat) n item :
  ns !! slot = Some n -> node_ids (<[slot := backfilled n item]> ns) = node_ids ns.
Proof.
  intros Hn. unfold node_ids. rewrite list_fmap_insert, backfilled_id.
  apply list_insert_id. by rewrite list_lookup_fmap, Hn.
Qed.

Lemma keys_backfill (ns : list GraphNode.t) (slot : nat) n item :
  ns !! slot = Some n -> key <$> <[slot := backfilled n item]> ns = key <$> ns.
Proof.
  intros Hn. rewrite list_fmap_insert, backfilled_key.
  apply list_insert_id. by rewrite list_lookup_fmap, Hn.
Qed.

Lemma forEach_callback_exact src env item st :
  index_sound st -> index_exact st ->
  index_exact (forEach_callback src env item st).
Proof.
  intros Hs Hx k.
  destruct (forEach_callback_cases src env item st Hs)
    as [(slot & n & Hk & Hn & Hkey & ->) | [Hk ->]];
    rewrite add_edge_nodes, add_edge_index; simpl.
  - rewrite keys_backfill by done. apply Hx.
  - rewrite fmap_app, elem_of_app, lookup_insert_is_Some, <- (Hx k). simpl.
    rewrite list_elem_of_singleton.
    change (key (newNode src env item)) with (item_key item).
    destruct (decide (item_key item = k)) as [Heq|Hne].
    + split; intros _; [by right | by left].
    + split; [intros [?|[_ ?]]; [done | by left] | intros [?|?]; [by right; split | by subst]].
Qed.

Lemma forEach_exact src env items : forall i st,
  index_sound st -> index_exact st -> index_exact (forEach src env i items st).
Proof.
  induction items as [|item items IH]; intros i st Hs Hx; simpl; [done|].
  apply IH; [by apply forEach_callback_sound | by apply forEach_callback_exact].
Qed.

Lemma initial_state_exact g : index_exact (initial_state g).
Proof. intros k. apply initial_state_lookup. Qed.

Lemma forEach_callback_ids src env item st :
  index_sound st ->
  exists extra,
    node_ids (nextNodes (forEach_callback src env item st))
    = node_ids (nextNodes st) ++ extra.
Proof.
  intros Hs.
  destruct (forEach_callback_cases src env item st Hs)
    as [(slot & n & Hk & Hn & Hkey & ->) | [Hk ->]];
    rewrite add_edge_nodes; simpl.
  - exists []. by rewrite node_ids_backfill, app_nil_r.
  - eexists. unfold node_ids. by rewrite fmap_app.
Qed.

Lemma forEach_ids src env items : forall i st,
  index_sound st ->
  exists extra,
    node_ids (nextNodes (forEach src env i items st)) = node_ids (nextNodes st) ++ extra.
Proof.
  induction items as [|item items IH]; intros i st Hs; simpl.
  - exists []. by rewrite app_nil_r.
  - destruct (forEach_callback_ids src (env i) item st Hs) as [ex1 H1].
    destruct (IH (S i) _ (forEach_callback_sound src (env i) item st Hs)) as [ex2 H2].
    exists (ex1 ++ ex2). by rewrite H2, H1, app_assoc.
Qed.

(** *** The edges along the loop *)

Lemma add_edge_edges src item tid st :
  exists extra, nextEdges (add_edge src item tid st) = nextEdges st ++ extra.
Proof.
  unfold add_edge. destruct (_ && _); simpl; [by eexists | exists []; by rewrite app_nil_r].
Qed.

Lemma forEach_callback_edges src env item st :
  exists extra, nextEdges (forEach_callback src env item st) = nextEdges st ++ extra.
Proof.
  unfold forEach_callback.
  destruct (resolve_target _ _ _ _ _) as [[st' tid]|] eqn:Hr.
  - destruct (add_edge_edges src item tid st') as [extra ->].
    exists extra. f_equal. unfold resolve_target in Hr.
    destruct (nodeMap st !! _); [destruct (nextNodes st !! _)|]; by simplify_eq.
  - exists []. by rewrite app_nil_r.
Qed.

Lemma forEach_edges src env items : forall i st,
  exists extra, nextEdges (forEach src env i items st) = nextEdges st ++ extra.
Proof.
  induction items as [|item items IH]; intros i st; simpl.
  - exists []. by rewrite app_nil_r.
  - destruct (forEach_callback_edges src (env i) item st) as [ex1 H1].
    destruct (IH (S i) (forEach_callback src (env i) item st)) as [ex2 H2].
    exists (ex1 ++ ex2). by rewrite H2, H1, app_assoc.
Qed.

(** After [add_edge], the source and the target are joined, unless they are
    the same id. *)
Lemma edge_matches_joins a b e : edge_matches a b e = true -> joins e a b.
Proof.
  unfold edge_matches, joins, strict_eq, dot_id_eq, endpoint_id.
  destruct (GraphEdge.source e), (GraphEdge.target e); simpl;
    rewrite ?andb_false_r, ?orb_false_r; simpl; try done;
    rewrite ?orb_true_iff, ?andb_true_iff, ?bool_decide_eq_true; tauto.
Qed.

Lemma add_edge_joins src item tid st :
  GraphNode.id src <> tid ->
  exists e, e ∈ nextEdges (add_edge src item tid st) /\ joins e (GraphNode.id src) tid.
Proof.
  intros Hne. unfold add_edge.
  destruct (existsb _ _) eqn:Hex; simpl.
  - apply existsb_exists in Hex as (e & He & Hm).
    exists e. split; [by apply list_elem_of_In | by apply edge_matches_joins].
  - rewrite bool_decide_eq_false_2 by done. simpl.
    eexists. split; [apply elem_of_app; right; apply list_elem_of_singleton; reflexivity|].
    left. done.
Qed.


(** *** The claims about the merge *)

(** C9.  Merging an empty item list is the identity: the result has the node
    list and the edge list of the input graph, element for element. *)
Theorem addToGraph_nil g src env : addToGraph g src [] env = g.
Proof. by destruct g. Qed.

Lemma addToGraph_count_general g src items env :
  length (nodes (addToGraph g src items env))
  = (length (nodes g)
     + length (remove_dups
                 (filter (fun k => k ∉ key <$> nodes g) (item_key <$> items))))%nat.
Proof.
  unfold addToGraph; simpl. rewrite forEach_length. simpl.
  do 3 f_equal. apply list_filter_iff. intros k.
  rewrite <- initial_state_lookup, <- eq_None_not_Some. done.
Qed.

(** C2.  When no label of the batch is present in the graph (compared after
    [toLowerCase]), the merge adds exactly as many nodes as the batch has
    distinct lower-cased labels; and in general it adds a node only for the
    distinct labels that the graph does not have yet, so that an item matching
    an existing node creates none. *)
Theorem addToGraph_node_count g src items env :
  (Forall (fun it => item_key it ∉ key <$> nodes g) items ->
   length (nodes (addToGraph g src items env))
   = (length (nodes g) + length (remove_dups (item_key <$> items)))%nat)
  /\ length (nodes (addToGraph g src items env))
     = (length (nodes g)
        + length (remove_dups
                    (filter (fun k => k ∉ key <$> nodes g) (item_key <$> items))))%nat.
Proof.
  split; [|apply addToGraph_count_general].
  intros Hnew. rewrite addToGraph_count_general. do 3 f_equal.
  induction Hnew as [|it its Hit _ IH]; [done|].
  rewrite fmap_cons, filter_cons_True by done. by rewrite IH.
Qed.

Lemma edges_closed_mono ns ns' es :
  (forall a, a ∈ node_ids ns -> a ∈ node_ids ns') ->
  edges_closed ns es -> edges_closed ns' es.
Proof.
  intros Hsub Hcl. eapply Forall_impl; [exact Hcl|]. intros e [? ?]. auto.
Qed.

Lemma forEach_callback_closed src env item st :
  index_sound st ->
  GraphNode.id src ∈ node_ids (nextNodes st) ->
  edges_closed (nextNodes st) (nextEdges st) ->
  GraphNode.id src ∈ node_ids (nextNodes (forEach_callback src env item st))
  /\ edges_closed (nextNodes (forEach_callback src env item st))
       (nextEdges (forEach_callback src env item st)).
Proof.
  intros Hs Hsrc Hcl.
  assert (forall tid st',
    GraphNode.id src ∈ node_ids (nextNodes st') ->
    tid ∈ node_ids (nextNodes st') ->
    edges_closed (nextNodes st') (nextEdges st') ->
    GraphNode.id src ∈ node_ids (nextNodes (add_edge src item tid st'))
    /\ edges_closed (nextNodes (add_edge src item tid st'))
         (nextEdges (add_edge src item tid st'))) as Hadd.
  { intros tid st' H1 H2 H3. rewrite add_edge_nodes. split; [done|].
    unfold add_edge. destruct (_ && _); simpl; [|done].
    apply Forall_app. split; [done|]. by repeat constructor. }
  destruct (forEach_callback_cases src env item st Hs)
    as [(slot & n & Hk & Hn & Hkey & ->) | [Hk ->]]; apply Hadd; simpl.
  - by rewrite node_ids_backfill.
  - rewrite node_ids_backfill by done.
    apply list_elem_of_fmap. exists n. split; [done|].
    by eapply list_elem_of_lookup_2.
  - eapply edges_closed_mono; [|exact Hcl].
    intros a. by rewrite node_ids_backfill.
  - unfold node_ids. rewrite fmap_app. apply elem_of_app. by left.
  - unfold node_ids. rewrite fmap_app. apply elem_of_app. right.
    apply list_elem_of_singleton. reflexivity.
  - eapply edges_closed_mono; [|exact Hcl].
    intros a Ha. unfold node_ids. rewrite fmap_app. apply elem_of_app. by left.
Qed.

Lemma forEach_closed src env items : forall i st,
  index_sound st ->
  GraphNode.id src ∈ node_ids (nextNodes st) ->
  edges_closed (nextNodes st) (nextEdges st) ->
  edges_closed (nextNodes (forEach src env i items st))
    (nextEdges (forEach src env i items st)).
Proof.
  induction items as [|it items IH]; intros i st Hs Hsrc Hcl; simpl; [done|].
  destruct (forEach_callback_closed src (env i) it st Hs Hsrc Hcl) as [H1 H2].
  apply IH; [by apply forEach_callback_sound | done | done].
Qed.

(** C4.  If the source id names a node of the graph and every end of every
    edge of the graph names a node of the graph, the same holds of the graph
    the merge returns. *)
Theorem addToGraph_edges_closed g src items env :
  GraphNode.id src ∈ node_ids (nodes g) ->
  edges_closed (nodes g) (edges g) ->
  edges_closed (nodes (addToGraph g src items env))
    (edges (addToGraph g src items env)).
Proof.
  intros Hsrc Hcl. unfold addToGraph; simpl.
  apply forEach_closed; [apply initial_state_sound | done | done].
Qed.

(** The node objects of the previous array keep their slots and their ids:
    read through the previous array after the update, they are the first
    slots of the result. *)
Lemma addToGraph_ids_prefix g src items env :
  exists extra,
    node_ids (nodes (addToGraph g src items env)) = node_ids (nodes g) ++ extra.
Proof.
  unfold addToGraph; simpl.
  apply (forEach_ids src env items 0 (initial_state g)), initial_state_sound.
Qed.

Lemma forEach_callback_keeps src env item st slot n e :
  nextNodes st !! slot = Some n ->
  GraphNode.explanation n = Some e -> e <> "" ->
  nextNodes (forEach_callback src env item st) !! slot = Some n.
Proof.
  intros Hn He Hne. unfold forEach_callback, resolve_target.
  destruct (nodeMap st !! _) as [slot'|]; simpl.
  - destruct (nextNodes st !! slot') as [n'|] eqn:Hn'; simpl; [|done].
    rewrite add_edge_nodes; simpl.
    destruct (negb _ && _) eqn:Htest; [|done].
    destruct (decide (slot' = slot)) as [->|Hd]; [|by rewrite list_lookup_insert_ne].
    exfalso. assert (n' = n) as -> by congruence.
    rewrite He in Htest. unfold truthy_opt_string, truthy_string in Htest.
    by rewrite bool_decide_eq_false_2 in Htest.
  - rewrite add_edge_nodes; simpl. by apply lookup_app_l_Some.
Qed.

Lemma forEach_keeps src env items slot n e : forall i st,
  nextNodes st !! slot = Some n ->
  GraphNode.explanation n = Some e -> e <> "" ->
  nextNodes (forEach src env i items st) !! slot = Some n.
Proof.
  induction items as [|it items IH]; intros i st Hn He Hne; simpl; [done|].
  apply IH; [|done|done]. by eapply forEach_callback_keeps.
Qed.

(** C5.  A node that holds a non-empty cached explanation at some point of
    the batch (before it: take [pre = []]) is left as it is by every later
    item: the backfill never overwrites a non-empty explanation. *)
Theorem backfill_first_writer_wins g src pre post env slot n e :
  nodes (addToGraph g src pre env) !! slot = Some n ->
  GraphNode.explanation n = Some e ->
  e <> "" ->
  nodes (addToGraph g src (pre ++ post) env) !! slot = Some n.
Proof.
  unfold addToGraph; simpl. intros Hn He Hne.
  rewrite forEach_app. by eapply forEach_keeps.
Qed.

(** C10.  An item that resolves to a node [n] already in the array changes
    the slot of that node, and nothing else in the array.  When the
    explanation of [n] is [undefined] or empty and that of the item is not
    empty, the node [n'] in the slot afterwards has the explanation of the
    item and every other field of [n]; in every other case (a non-empty
    cache, or an item with an empty explanation) it is [n] itself. *)
Theorem backfill_exactly g src pre it env :
  item_key it ∈ key <$> nodes (addToGraph g src pre env) ->
  exists slot n n',
    nodes (addToGraph g src pre env) !! slot = Some n
    /\ key n = item_key it
    /\ nodes (addToGraph g src (pre ++ [it]) env)
       = <[slot := n']> (nodes (addToGraph g src pre env))
    /\ (no_cached_explanation n /\ GeneratedItem.explanation it <> "" ->
        n' = GraphNode.mk (GraphNode.id n) (GraphNode.label n) (GraphNode.x n)
               (GraphNode.y n) (GraphNode.fx n) (GraphNode.fy n) (GraphNode.group n)
               (GraphNode.radius n) (GraphNode.color n)
               (Some (GeneratedItem.explanation it)))
    /\ (~ (no_cached_explanation n /\ GeneratedItem.explanation it <> "") -> n' = n).
Proof.
  unfold addToGraph; simpl. intros Hin.
  set (st := forEach src env 0 pre (initial_state g)) in *.
  assert (index_sound st) as Hs by apply forEach_sound, initial_state_sound.
  assert (index_exact st) as Hx
    by (apply forEach_exact; [apply initial_state_sound | apply initial_state_exact]).
  rewrite forEach_app. fold st. simpl.
  destruct (forEach_callback_cases src (env (length pre)) it st Hs)
    as [(slot & n & Hk & Hn & Hkey & ->) | [Hk _]].
  - exists slot, n, (backfilled n it). rewrite add_edge_nodes.
    repeat split; try done; unfold backfilled; case_decide; done.
  - apply Hx in Hin. rewrite Hk in Hin. by destruct Hin.
Qed.

Lemma forEach_callback_links src env it st :
  index_sound st ->
  exists n, n ∈ nextNodes (forEach_callback src env it st)
    /\ key n = item_key it
    /\ (GraphNode.id n <> GraphNode.id src ->
        exists e, e ∈ nextEdges (forEach_callback src env it st)
                  /\ joins e (GraphNode.id src) (GraphNode.id n)).
Proof.
  intros Hs.
  destruct (forEach_callback_cases src env it st Hs)
    as [(slot & n & Hk & Hn & Hkey & ->) | [Hk ->]].
  - exists (backfilled n it). rewrite add_edge_nodes; simpl.
    split; [|split].
    + eapply list_elem_of_lookup_2. apply list_lookup_insert_eq.
      by eapply lookup_lt_Some.
    + by rewrite backfilled_key.
    + rewrite backfilled_id. intros Hne. by apply add_edge_joins.
  - exists (newNode src env it). rewrite add_edge_nodes; simpl.
    split; [|split]; [|done|].
    + apply elem_of_app. right. by apply list_elem_of_singleton.
    + intros Hne. by apply add_edge_joins.
Qed.

(** Later iterations keep the node of an item, up to its explanation, and
    keep every edge. *)
Lemma forEach_callback_node_stays src env it st n :
  index_sound st -> n ∈ nextNodes st ->
  exists n', n' ∈ nextNodes (forEach_callback src env it st)
    /\ key n' = key n /\ GraphNode.id n' = GraphNode.id n.
Proof.
  intros Hs Hin.
  destruct (forEach_callback_cases src env it st Hs)
    as [(slot & m & Hk & Hm & Hkey & ->) | [Hk ->]]; rewrite add_edge_nodes; simpl.
  - apply list_elem_of_lookup in Hin as [j Hj].
    destruct (decide (j = slot)) as [->|Hd].
    + exists (backfilled m it). assert (m = n) as -> by congruence.
      split; [|by rewrite backfilled_key, backfilled_id].
      eapply list_elem_of_lookup_2. apply list_lookup_insert_eq.
      by eapply lookup_lt_Some.
    + exists n. split; [|done]. eapply list_elem_of_lookup_2.
      by rewrite list_lookup_insert_ne.
  - exists n. split; [|done]. apply elem_of_app. by left.
Qed.

Lemma forEach_node_stays src env items : forall i st n (es : list GraphEdge.t),
  index_sound st -> n ∈ nextNodes st ->
  (forall e, e ∈ es -> e ∈ nextEdges st) ->
  exists n', n' ∈ nextNodes (forEach src env i items st)
    /\ key n' = key n /\ GraphNode.id n' = GraphNode.id n
    /\ (forall e, e ∈ es -> e ∈ nextEdges (forEach src env i items st)).
Proof.
  induction items as [|it items IH]; intros i st n es Hs Hn Hes; simpl.
  - exists n. done.
  - destruct (forEach_callback_node_stays src (env i) it st n Hs Hn)
      as (n1 & Hn1 & Hk1 & Hi1).
    destruct (forEach_callback_edges src (env i) it st) as [extra Hex].
    destruct (IH (S i) (forEach_callback src (env i) it st) n1 es)
      as (n2 & Hn2 & Hk2 & Hi2 & He2).
    + by apply forEach_callback_sound.
    + done.
    + intros e He. rewrite Hex. apply elem_of_app. left. auto.
    + exists n2. repeat split; [done|congruence|congruence|done].
Qed.

Lemma forEach_links src env items : forall i st,
  index_sound st ->
  forall it, it ∈ items ->
    exists n, n ∈ nextNodes (forEach src env i items st)
      /\ key n = item_key it
      /\ (GraphNode.id n <> GraphNode.id src ->
          exists e, e ∈ nextEdges (forEach src env i items st)
                    /\ joins e (GraphNode.id src) (GraphNode.id n)).
Proof.
  induction items as [|it0 items IH]; intros i st Hs it Hin; simpl.
  - by apply elem_of_nil in Hin.
  - apply elem_of_cons in Hin as [->|Hin].
    + destruct (forEach_callback_links src (env i) it0 st Hs) as (n & Hn & Hk & Hl).
      destruct (decide (GraphNode.id n = GraphNode.id src)) as [Heq|Hne].
      * destruct (forEach_node_stays src env items (S i)
                    (forEach_callback src (env i) it0 st) n [])
          as (n' & Hn' & Hk' & Hi' & _);
          [by apply forEach_callback_sound | done | by intros e ?%elem_of_nil |].
        exists n'. repeat split; [done | congruence |]. intros Hne. congruence.
      * destruct (Hl Hne) as (e & He & Hj).
        destruct (forEach_node_stays src env items (S i)
                    (forEach_callback src (env i) it0 st) n [e])
          as (n' & Hn' & Hk' & Hi' & He');
          [by apply forEach_callback_sound | done
          | by intros e' ->%list_elem_of_singleton |].
        exists n'. repeat split; [done | congruence |]. intros _.
        exists e. split; [apply He'; by apply list_elem_of_singleton|].
        by rewrite Hi'.
    + apply IH; [by apply forEach_callback_sound | done].
Qed.

(** C1, as the code has it.  The merge never looks the source up in the node
    list.  With a source id that names no node of the graph it still returns,
    and still resolves every item to a node of the result; but the edge step
    is not skipped: the result joins the missing source id to the node of
    every item, the only exception being a node whose id is the source id
    itself, which no node of the input graph is. *)
Theorem addToGraph_missing_source g src items env :
  GraphNode.id src ∉ node_ids (nodes g) ->
  forall it, it ∈ items ->
    exists n, n ∈ nodes (addToGraph g src items env)
      /\ key n = item_key it
      /\ (GraphNode.id n ∈ node_ids (nodes g) \/ GraphNode.id n <> GraphNode.id src ->
          exists e, e ∈ edges (addToGraph g src items env)
                    /\ joins e (GraphNode.id src) (GraphNode.id n)).
Proof.
  intros Hmiss it Hin. unfold addToGraph; simpl.
  destruct (forEach_links src env items 0 (initial_state g)
              (initial_state_sound g) it Hin) as (n & Hn & Hk & Hl).
  exists n. repeat split; [done | done |].
  intros [Hold|Hne]; apply Hl; [|done].
  intros Heq. apply Hmiss. by rewrite <- Heq.
Qed.


(** *** Parallel edges *)

Lemma no_parallel_snoc es e :
  no_parallel_edges (es ++ [e])
  = no_parallel_edges es && forallb (fun e' => negb (same_pair e' e)) es.
Proof.
  induction es as [|e0 es IH]; simpl; [done|].
  rewrite forallb_app, IH. simpl.
  destruct (forallb _ es), (same_pair e0 e), (no_parallel_edges es), (forallb _ es);
    reflexivity.
Qed.

Lemma string_joins_matches e a b :
  string_ends e = true -> joins e a b -> edge_matches a b e = true.
Proof.
  unfold string_ends, joins, edge_matches, strict_eq, endpoint_id.
  destruct (GraphEdge.source e), (GraphEdge.target e); try done.
  intros _ Hj. repeat case_bool_decide; simpl; try reflexivity;
    exfalso; destruct Hj as [[? ?]|[? ?]]; congruence.
Qed.

Lemma add_edge_no_parallel src it tid st :
  Forall (fun e => string_ends e = true) (nextEdges st) ->
  no_parallel_edges (nextEdges st) = true ->
  Forall (fun e => string_ends e = true) (nextEdges (add_edge src it tid st))
  /\ no_parallel_edges (nextEdges (add_edge src it tid st)) = true.
Proof.
  intros Hstr Hnp. unfold add_edge.
  destruct (existsb _ _) eqn:Hex; simpl; [done|].
  destruct (bool_decide _); simpl; [done|]. split.
  - apply Forall_app. split; [done|]. by repeat constructor.
  - rewrite no_parallel_snoc, Hnp. simpl.
    apply forallb_forall. intros e' He'. apply negb_true_iff.
    destruct (same_pair e' _) eqn:Hsp; [|done]. exfalso.
    apply bool_decide_eq_true in Hsp. simpl in Hsp.
    assert (existsb (edge_matches (GraphNode.id src) tid) (nextEdges st) = true) as Ht;
      [|congruence].
    apply existsb_exists. exists e'. split; [done|].
    apply string_joins_matches; [|done].
    apply list_elem_of_In in He'. by eapply Forall_forall in Hstr.
Qed.

Lemma forEach_callback_no_parallel src env it st :
  Forall (fun e => string_ends e = true) (nextEdges st) ->
  no_parallel_edges (nextEdges st) = true ->
  Forall (fun e => string_ends e = true) (nextEdges (forEach_callback src env it st))
  /\ no_parallel_edges (nextEdges (forEach_callback src env it st)) = true.
Proof.
  intros Hstr Hnp. unfold forEach_callback.
  destruct (resolve_target _ _ _ _ _) as [[st' tid]|] eqn:Hr; [|done].
  assert (nextEdges st' = nextEdges st) as Hsame.
  { unfold resolve_target in Hr.
    destruct (nodeMap st !! _); [destruct (nextNodes st !! _)|]; by simplify_eq. }
  apply add_edge_no_parallel; by rewrite Hsame.
Qed.

(** X6.  On a graph whose edges all still have ids at both ends and of which
    no two join the same unordered pair of ids, a merge adds no second edge
    on any pair: the test for an existing edge looks both ways for edges of
    this form. *)
Lemma addToGraph_no_parallel_unresolved g src items env :
  Forall (fun e => string_ends e = true) (edges g) ->
  no_parallel_edges (edges g) = true ->
  no_parallel_edges (edges (addToGraph g src items env)) = true.
Proof.
  unfold addToGraph; simpl.
  change (edges g) with (nextEdges (initial_state g)).
  generalize (initial_state g) 0%nat. intros st i. revert i st.
  induction items as [|it items IH]; intros i st Hstr Hnp; simpl; [done|].
  destruct (forEach_callback_no_parallel src (env i) it st Hstr Hnp) as [H1 H2].
  by apply IH.
Qed.

(** *** The seed of a new node *)

(** For a coordinate [q] of the source that is not zero, the seed lies between
    the doubles nearest to [q - 30] and to [q + 30], whatever [Math.random()]
    in [0, 1) returns. *)
Lemma seed_coordinate_near (q r : Q) :
  ~ (q == 0)%Q -> (0 <= r)%Q -> (r < 1)%Q ->
  exists v, seed_coordinate (Some q) r = Some v
            /\ (round_double (q - 30) <= v)%Q /\ (v <= round_double (q + 30))%Q.
Proof.
  intros Hq H0 H1. unfold seed_coordinate, truthy_opt_number.
  destruct (Qeq_bool q 0) eqn:Hz.
  { exfalso. by apply Hq, Qeq_bool_iff. }
  simpl. eexists. split; [reflexivity|].
  unfold Number_add, Number_mul, Number_sub.
  set (t1 := round_double (r - (1 # 2))).
  assert (- (1 # 2) <= t1 <= 1 # 2)%Q as [L1 U1].
  { split.
    - assert (round_double (- (1 # 2)) = (- (1 # 2))%Q) as <- by (vm_compute; reflexivity).
      apply round_double_le. lra.
    - assert (round_double (1 # 2) = (1 # 2)%Q) as <- by (vm_compute; reflexivity).
      apply round_double_le. lra. }
  set (t2 := round_double (t1 * 60)).
  assert (- (30) <= t2 <= 30)%Q as [L2 U2].
  { split.
    - assert (round_double (- (30)) = (- (30))%Q) as <- by (vm_compute; reflexivity).
      apply round_double_le. lra.
    - assert (round_double 30 = 30%Q) as <- by (vm_compute; reflexivity).
      apply round_double_le. lra. }
  split; apply round_double_le; lra.
Qed.

(** A coordinate of the source that is zero counts as absent. *)
Lemma seed_coordinate_zero (q r : Q) :
  (q == 0)%Q -> seed_coordinate (Some q) r = None.
Proof.
  intros Hq. unfold seed_coordinate, truthy_opt_number.
  apply Qeq_bool_iff in Hq. by rewrite Hq.
Qed.

(** X7.  The node synthesized from a source whose coordinates are both
    non-zero has both coordinates, each between the doubles nearest to the
    coordinate of the source minus 30 and plus 30: the jitter is at most 30,
    and the sum is rounded once. *)
Lemma newNode_near src env it (qx qy : Q) :
  GraphNode.x src = Some qx -> GraphNode.y src = Some qy ->
  ~ (qx == 0)%Q -> ~ (qy == 0)%Q ->
  (0 <= random_x env)%Q -> (random_x env < 1)%Q ->
  (0 <= random_y env)%Q -> (random_y env < 1)%Q ->
  exists vx vy,
    GraphNode.x (newNode src env it) = Some vx
    /\ GraphNode.y (newNode src env it) = Some vy
    /\ (round_double (qx - 30) <= vx)%Q /\ (vx <= round_double (qx + 30))%Q
    /\ (round_double (qy - 30) <= vy)%Q /\ (vy <= round_double (qy + 30))%Q.
Proof.
  intros Hx Hy Hqx Hqy Hx0 Hx1 Hy0 Hy1. simpl. rewrite Hx, Hy.
  destruct (seed_coordinate_near qx (random_x env) Hqx Hx0 Hx1) as (vx & -> & ? & ?).
  destruct (seed_coordinate_near qy (random_y env) Hqy Hy0 Hy1) as (vy & -> & ? & ?).
  exists vx, vy. repeat split; done.
Qed.

End MergeFacts.

(** * The merge on concrete inputs *)

(** Decidable side conditions on concrete inputs are settled by evaluation. *)
Ltac by_evaluation := apply (bool_decide_unpack _); vm_compute; exact I.

(** C1 as stated fails: [ghost] is in no graph, and merging one item into the
    Octopus graph with [ghost] as the source appends the edge
    ghost -> root-1. *)
Lemma missing_source_still_linked :
  ~ (GraphNode.id ghost ∉ node_ids (nodes octopus_graph) ->
     forall e,
       e ∈ edges (addToGraph ascii_toLowerCase octopus_graph ghost
                    [mk_item "octopus" ""] sample_entropy) ->
       e ∉ edges octopus_graph ->
       ~ references e (GraphNode.id ghost)).
Proof.
  intros H.
  assert (GraphNode.id ghost ∉ node_ids (nodes octopus_graph)) as Hmiss by by_evaluation.
  apply (H Hmiss
           (GraphEdge.mk (EId "ghost") (EId "root-1") "is a type of" (Some "#3b82f6"))).
  - apply list_elem_of_singleton. reflexivity.
  - apply not_elem_of_nil.
  - left. reflexivity.
Qed.

Lemma addToGraph_missing_source_witness :
  exists n, n ∈ nodes (addToGraph ascii_toLowerCase octopus_graph ghost
                         [mk_item "octopus" ""] sample_entropy)
    /\ key ascii_toLowerCase n = item_key ascii_toLowerCase (mk_item "octopus" "")
    /\ (GraphNode.id n ∈ node_ids (nodes octopus_graph)
        \/ GraphNode.id n <> GraphNode.id ghost ->
        exists e, e ∈ edges (addToGraph ascii_toLowerCase octopus_graph ghost
                               [mk_item "octopus" ""] sample_entropy)
                  /\ joins e (GraphNode.id ghost) (GraphNode.id n)).
Proof.
  apply (addToGraph_missing_source ascii_toLowerCase octopus_graph ghost
           [mk_item "octopus" ""] sample_entropy).
  - by_evaluation.
  - apply list_elem_of_singleton. reflexivity.
Defined.

Lemma addToGraph_node_count_witness :
  length (nodes (addToGraph ascii_toLowerCase octopus_graph octopus octopus_items
                   sample_entropy)) = 3%nat.
Proof.
  apply (proj1 (addToGraph_node_count ascii_toLowerCase octopus_graph octopus
                  octopus_items sample_entropy)).
  by_evaluation.
Defined.

Lemma addToGraph_edges_closed_witness :
  edges_closed
    (nodes (addToGraph ascii_toLowerCase octopus_graph octopus octopus_items
              sample_entropy))
    (edges (addToGraph ascii_toLowerCase octopus_graph octopus octopus_items
              sample_entropy)).
Proof.
  apply (addToGraph_edges_closed ascii_toLowerCase octopus_graph octopus
           octopus_items sample_entropy).
  - by_evaluation.
  - constructor.
Defined.

Lemma backfill_first_writer_wins_witness :
  nodes (addToGraph ascii_toLowerCase octopus_graph octopus
           ([] ++ [mk_item "OCTOPUS" "Something else."]) sample_entropy) !! 0%nat
  = Some octopus.
Proof.
  apply (backfill_first_writer_wins ascii_toLowerCase octopus_graph octopus []
           [mk_item "OCTOPUS" "Something else."] sample_entropy 0 octopus "A mollusc.").
  - reflexivity.
  - reflexivity.
  - discriminate.
Defined.

Lemma backfill_exactly_witness :
  exists slot n n',
    nodes (addToGraph ascii_toLowerCase unresolved_graph alpha [] sample_entropy) !! slot = Some n
    /\ key ascii_toLowerCase n = item_key ascii_toLowerCase (mk_item "BETA" "Second letter.")
    /\ nodes (addToGraph ascii_toLowerCase unresolved_graph alpha
                ([] ++ [mk_item "BETA" "Second letter."]) sample_entropy)
       = <[slot := n']> (nodes (addToGraph ascii_toLowerCase unresolved_graph alpha [] sample_entropy))
    /\ (no_cached_explanation n /\ GeneratedItem.explanation (mk_item "BETA" "Second letter.") <> "" ->
        n' = GraphNode.mk (GraphNode.id n) (GraphNode.label n) (GraphNode.x n)
               (GraphNode.y n) (GraphNode.fx n) (GraphNode.fy n) (GraphNode.group n)
               (GraphNode.radius n) (GraphNode.color n)
               (Some (GeneratedItem.explanation (mk_item "BETA" "Second letter."))))
    /\ (~ (no_cached_explanation n /\ GeneratedItem.explanation (mk_item "BETA" "Second letter.") <> "") -> n' = n).
Proof.
  apply (backfill_exactly ascii_toLowerCase unresolved_graph alpha []
           (mk_item "BETA" "Second letter.") sample_entropy).
  by_evaluation.
Defined.

(** What the backfill does on the three kinds of cache: an empty string is
    overwritten, an item with an empty explanation writes nothing, and a node
    created earlier in the batch with an empty explanation is filled by a later
    item of the same label. *)
Example backfill_overwrites_empty_cache :
  GraphNode.explanation
    <$> nodes (addToGraph ascii_toLowerCase unresolved_graph alpha
                 [mk_item "BETA" "Second letter."] sample_entropy) !! 1%nat
  = Some (Some "Second letter.").
Proof. reflexivity. Qed.

Example empty_explanation_never_backfills :
  GraphNode.explanation
    <$> nodes (addToGraph ascii_toLowerCase unresolved_graph beta
                 [mk_item "alpha" ""] sample_entropy) !! 0%nat
  = Some None.
Proof. reflexivity. Qed.

Example backfill_within_batch :
  GraphNode.explanation
    <$> nodes (addToGraph ascii_toLowerCase octopus_graph octopus
                 [mk_item "Mimic Octopus" ""; mk_item "mimic octopus" "A mimic."]
                 sample_entropy) !! 1%nat
  = Some (Some "A mimic.").
Proof. reflexivity. Qed.

(** C3 fails on a graph whose edge d3 has resolved: the graph has the single
    edge beta -> alpha, with node objects at its ends; merging an item
    labelled "beta" with [alpha] as the source finds no edge between the two
    and appends a -> b. *)
Theorem parallel_edge_on_resolved_graph :
  no_parallel_edges (edges resolved_graph) = true
  /\ edges (addToGraph ascii_toLowerCase resolved_graph alpha
              [mk_item "beta" ""] sample_entropy)
     = edges resolved_graph
       ++ [GraphEdge.mk (EId "a") (EId "b") "is a type of" (Some "#3b82f6")]
  /\ no_parallel_edges
       (edges (addToGraph ascii_toLowerCase resolved_graph alpha
                 [mk_item "beta" ""] sample_entropy)) = false.
Proof. repeat split; reflexivity. Qed.

(** The same merge before d3 has resolved the edge adds nothing, and so does
    the merge on the resolved graph in the direction of the edge. *)
Example no_parallel_edge_on_unresolved_graph :
  edges (addToGraph ascii_toLowerCase unresolved_graph alpha
           [mk_item "beta" ""] sample_entropy)
  = edges unresolved_graph.
Proof. reflexivity. Qed.

Example no_parallel_edge_forward :
  edges (addToGraph ascii_toLowerCase resolved_graph beta
           [mk_item "alpha" ""] sample_entropy)
  = edges resolved_graph.
Proof. reflexivity. Qed.

(** The sum is rounded: far from the origin the doubles are more than 30
    apart.  At [x = 2^57] they are 32 apart, and a jitter of 29.53125 puts the
    new node 32 to the right of its source. *)
Example seed_coordinate_far_out :
  seed_coordinate (Some (2 ^ 57)%Q) (127 # 128) = Some (2 ^ 57 + 32)%Q.
Proof. vm_compute. reflexivity. Qed.

(** C8 fails for a source on an axis: [alpha] has the position (0, 5); the
    node synthesized from it has no [x], and a [y] within 30 of 5. *)
Theorem new_node_of_source_on_axis :
  GraphNode.x alpha = Some (0 # 1)
  /\ GraphNode.y alpha = Some (5 # 1)
  /\ exists n,
       nodes (addToGraph ascii_toLowerCase unresolved_graph alpha
                [mk_item "Gamma" "Third letter."] sample_entropy)
       = nodes unresolved_graph ++ [n]
       /\ GraphNode.x n = None
       /\ GraphNode.y n = Some (20 # 1)
       /\ (20 # 1 == 5 + ((3 # 4) - (1 # 2)) * 60)%Q.
Proof. repeat split. eexists. repeat split. Qed.

(** * The gesture listeners *)

Lemma Page_eta p :
  mkPage (runs p) (elements p) (exiting p) (timeouts p) (next_handle p) (calls p) = p.
Proof. by destruct p. Qed.

(** ** One press and release on a node

    The node [d] has the drag listeners of run [r] and the click listener of
    run [c]; no timer is pending when it is pressed. *)

Section Gesture.

Variables (p : Page) (d : string) (r c : nat) (v : EffectLocals).
Hypothesis Helement : elements p !! d = Some (mkListeners r c).
Hypothesis Hlocals : runs p !! r = Some v.
Hypothesis Hidle : timeouts p = [].

Lemma fire_due_idle now : fire_due now p = p.
Proof.
  etransitivity; [|apply Page_eta]. unfold fire_due. by rewrite Hidle.
Qed.

(** The press: both flags of run [r] are reset, its timer is the only one
    pending. *)
Lemma step_press t0 :
  step p (t0, DragStart d)
  = mkPage (alter (fun _ => mkEffectLocals false (Some (next_handle p)) false) r (runs p))
      (elements p) (exiting p) [mkTimeout (next_handle p) (t0 + 1000) r d]
      (S (next_handle p)) (calls p).
Proof.
  unfold step; simpl. rewrite fire_due_idle, Helement. unfold on_start.
  by rewrite Hidle.
Qed.

(** A release before the timer is due cancels it: no callback, no timer
    left. *)
Lemma press_release_early t0 t1 :
  t0 <= t1 < t0 + 1000 ->
  run [(t0, DragStart d); (t1, DragEnd d)] p
  = mkPage (alter (fun _ => mkEffectLocals false None false) r (runs p))
      (elements p) (exiting p) [] (S (next_handle p)) (calls p).
Proof.
  intros Ht. unfold run; simpl. rewrite step_press.
  unfold step, fire_due; simpl.
  rewrite !filter_cons, !filter_nil; simpl.
  repeat case_decide; try lia. simpl. rewrite Helement.
  unfold on_end, cancel_long_press; simpl.
  rewrite list_lookup_alter_eq, Hlocals; simpl.
  unfold with_locals, clearTimeout; simpl.
  rewrite filter_cons, filter_nil, decide_False by (simpl; tauto).
  by rewrite list_alter_alter_eq.
Qed.

(** A release once the timer is due: the timer has fired, has called the
    long-press callback and has set [longPressTriggered] of run [r]. *)
Lemma press_release_late t0 t1 :
  t0 + 1000 <= t1 ->
  run [(t0, DragStart d); (t1, DragEnd d)] p
  = mkPage (alter (fun _ => mkEffectLocals false None true) r (runs p))
      (elements p) (exiting p) [] (S (next_handle p)) (calls p ++ [onNodeLongPress d]).
Proof.
  intros Ht. unfold run; simpl. rewrite step_press.
  unfold step, fire_due; simpl.
  rewrite !filter_cons, !filter_nil; simpl.
  repeat case_decide; try lia. simpl.
  unfold on_timeout, with_locals; simpl. rewrite Helement.
  unfold on_end, cancel_long_press; simpl.
  rewrite !list_lookup_alter_eq, Hlocals; simpl.
  unfold with_locals, clearTimeout; simpl.
  by rewrite !list_alter_alter_eq.
Qed.

Lemma run_then_click (a b : Z * Event) t :
  run [a; b; (t, Click d)] p = step (run [a; b] p) (t, Click d).
Proof. reflexivity. Qed.

(** *** Listeners of one run ([c = r]) *)

(** X10.  On a node whose drag and click listeners are of one run of the
    effect, with no timer pending: a press, a release less than a second
    later and the click give one call of the click callback and none of the
    long-press callback, and leave no timer pending, so that the long-press
    callback is not called later either. *)
Lemma click_when_undisturbed t0 t1 :
  c = r -> t0 <= t1 < t0 + 1000 ->
  calls (run [(t0, DragStart d); (t1, DragEnd d); (t1, Click d)] p)
  = calls p ++ [onNodeClick d]
  /\ timeouts (run [(t0, DragStart d); (t1, DragEnd d); (t1, Click d)] p) = [].
Proof.
  intros Hc Ht.
  rewrite run_then_click.
  rewrite press_release_early by done.
  unfold step, fire_due; simpl. rewrite Helement.
  unfold on_click; simpl. by rewrite Hc, list_lookup_alter_eq, Hlocals.
Qed.

(** X11.  On a node whose drag and click listeners are of one run of the
    effect, with no timer pending: a press held for a second or more, the
    release and the click give one call of the long-press callback and none
    of the click callback. *)
Lemma long_press_when_undisturbed t0 t1 :
  c = r -> t0 + 1000 <= t1 ->
  calls (run [(t0, DragStart d); (t1, DragEnd d); (t1, Click d)] p)
  = calls p ++ [onNodeLongPress d].
Proof.
  intros Hc Ht.
  rewrite run_then_click.
  rewrite press_release_late by done.
  unfold step, fire_due; simpl. rewrite Helement.
  unfold on_click; simpl. by rewrite Hc, list_lookup_alter_eq, Hlocals.
Qed.

(** *** A click listener of a later run ([c <> r])

    The click listener reads the flags [w] of run [c], which the press on [d]
    has not touched. *)

Variable w : EffectLocals.
Hypothesis Hlater : c <> r.
Hypothesis Hclick : runs p !! c = Some w.

(** X13.  On a node whose click listener is of another run [c] than its drag
    listeners, with both flags of run [c] unset: after a press held for a
    second or more the click is not suppressed, the long-press callback is
    followed by the click callback. *)
Lemma click_after_long_press_when_stale t0 t1 :
  t0 + 1000 <= t1 ->
  isDragging w = false -> longPressTriggered w = false ->
  calls (run [(t0, DragStart d); (t1, DragEnd d); (t1, Click d)] p)
  = calls p ++ [onNodeLongPress d; onNodeClick d].
Proof.
  intros Ht Hd Hl.
  rewrite run_then_click.
  rewrite press_release_late by done.
  unfold step, fire_due; simpl. rewrite Helement.
  unfold on_click; simpl.
  rewrite list_lookup_alter_ne, Hclick, Hd, Hl by done. simpl.
  by rewrite <- app_assoc.
Qed.

(** X14.  On a node whose click listener is of another run [c] than its drag
    listeners: a quick press, release and click call nothing when a flag of
    run [c] has been left set, since the press resets the flags of run [r]
    only; no timer is left pending, so that nothing is called later
    either. *)
Lemma click_swallowed_when_stale t0 t1 :
  t0 <= t1 < t0 + 1000 ->
  isDragging w || longPressTriggered w = true ->
  calls (run [(t0, DragStart d); (t1, DragEnd d); (t1, Click d)] p) = calls p
  /\ timeouts (run [(t0, DragStart d); (t1, DragEnd d); (t1, Click d)] p) = [].
Proof.
  intros Ht Hflag.
  rewrite run_then_click.
  rewrite press_release_early by done.
  unfold step, fire_due; simpl. rewrite Helement.
  unfold on_click; simpl.
  by rewrite list_lookup_alter_ne, Hclick, Hflag by done.
Qed.

End Gesture.

(** ** The two gestures on concrete pages *)

(** C6 fails after a drag elsewhere.  The click listener of X is the one of
    the latest run, which is also the run whose [isDragging] the drag of Y has
    left set; the press on X resets the flags of the run in which X entered.
    The click is swallowed. *)
Theorem click_swallowed_after_drag_elsewhere :
  let before := run drag_elsewhere empty_page in
  let after := run quick_click before in
  elements before !! "X" = Some (mkListeners 0 1)
  /\ invoked (onNodeClick "X") before after = 0%nat
  /\ invoked (onNodeLongPress "X") before after = 0%nat.
Proof. repeat split; vm_compute; reflexivity. Qed.

(** C7 fails for a node drawn before the latest run of the effect.  The timer
    sets [longPressTriggered] of the run in which X entered; the click
    listener reads the flag of the latest run.  Both callbacks are called. *)
Theorem click_follows_long_press :
  let before := run drawn_earlier empty_page in
  let after := run long_hold before in
  elements before !! "X" = Some (mkListeners 0 1)
  /\ calls after = calls before ++ [onNodeLongPress "X"; onNodeClick "X"]
  /\ invoked (onNodeLongPress "X") before after = 1%nat
  /\ invoked (onNodeClick "X") before after = 1%nat.
Proof. repeat split; vm_compute; reflexivity. Qed.

(** The same happens to a node drawn by the latest run, once the long press
    itself has made the effect run again. *)
Example click_follows_long_press_after_render :
  let before := run drawn_now empty_page in
  let after := run long_hold_with_render before in
  calls after = calls before ++ [onNodeLongPress "X"; onNodeClick "X"].
Proof. vm_compute. reflexivity. Qed.

(** Without a run of the effect in between, both gestures come out right. *)
Example click_on_fresh_node :
  calls (run [(2000, DragStart "X"); (2100, DragEnd "X"); (2100, Click "X")]
           (run drawn_now empty_page))
  = [onNodeClick "X"]
  /\ timeouts (run [(2000, DragStart "X"); (2100, DragEnd "X"); (2100, Click "X")]
                 (run drawn_now empty_page))
     = [].
Proof.
  apply (click_when_undisturbed (run drawn_now empty_page) "X" 0 0
           (mkEffectLocals false None false)); try reflexivity. lia.
Defined.

Example long_press_on_fresh_node :
  calls (run long_hold (run drawn_now empty_page)) = [onNodeLongPress "X"].
Proof.
  apply (long_press_when_undisturbed (run drawn_now empty_page) "X" 0 0
           (mkEffectLocals false None false)); try reflexivity. lia.
Defined.

(** * More about the merge *)

Section MergeMore.

Variable toLowerCase : string -> string.

Local Abbreviation key := (key toLowerCase).
Local Abbreviation item_key := (item_key toLowerCase).
Local Abbreviation index_sound := (index_sound toLowerCase).
Local Abbreviation index_exact := (index_exact toLowerCase).
Local Abbreviation index_canonical := (index_canonical toLowerCase).
Local Abbreviation settled := (settled toLowerCase).
Local Abbreviation forEach_callback := (forEach_callback toLowerCase).
Local Abbreviation forEach := (forEach toLowerCase).
Local Abbreviation initial_state := (initial_state toLowerCase).
Local Abbreviation addToGraph := (addToGraph toLowerCase).
Local Abbreviation callback_cases := (forEach_callback_cases toLowerCase).
Local Abbreviation callback_sound := (forEach_callback_sound toLowerCase).
Local Abbreviation backfill_test := (backfill_test toLowerCase).
Local Abbreviation add_edge_joins := (add_edge_joins toLowerCase).
Local Abbreviation edge_matches_joins := (edge_matches_joins toLowerCase).

(** *** The label index is the one [new Map] would build *)

Lemma Map_of_nodes_snoc ns : forall i m n,
  Map_of_nodes toLowerCase i (ns ++ [n]) m
  = <[key n := (i + length ns)%nat]> (Map_of_nodes toLowerCase i ns m).
Proof.
  induction ns as [|n0 ns IH]; intros i m n; simpl.
  - by rewrite Nat.add_0_r.
  - rewrite IH. by replace (S i + length ns)%nat with (i + S (length ns))%nat by lia.
Qed.

Lemma Map_of_nodes_keys ns : forall ns' i m,
  key <$> ns = key <$> ns' ->
  Map_of_nodes toLowerCase i ns m = Map_of_nodes toLowerCase i ns' m.
Proof.
  induction ns as [|n ns IH]; intros [|n' ns'] i m Hk; simpl in *; try done.
  injection Hk as Hn Hrest. unfold key in Hn. rewrite Hn. by apply IH.
Qed.

Lemma forEach_callback_canonical src env it st :
  index_sound st -> index_canonical st ->
  index_canonical (forEach_callback src env it st).
Proof.
  intros Hs Hc. unfold index_canonical in *.
  destruct (callback_cases src env it st Hs)
    as [(slot & n & Hk & Hn & Hkey & ->) | [Hk ->]];
    rewrite add_edge_nodes, add_edge_index; simpl.
  - rewrite Hc. apply Map_of_nodes_keys. symmetry. by apply keys_backfill.
  - rewrite Map_of_nodes_snoc, <- Hc. reflexivity.
Qed.

Lemma forEach_canonical src env items : forall i st,
  index_sound st -> index_canonical st ->
  index_canonical (forEach src env i items st).
Proof.
  induction items as [|it items IH]; intros i st Hs Hc; simpl; [done|].
  apply IH; [by apply callback_sound | by apply forEach_callback_canonical].
Qed.

(** *** Merging the same batch again *)

Lemma MergeState_eta st :
  mkMergeState (nextNodes st) (nextEdges st) (nodeMap st) = st.
Proof. by destruct st. Qed.

Lemma settled_fixed src env it st :
  settled src it st -> forEach_callback src env it st = st.
Proof.
  intros (slot & n & Hk & Hn & Hfill & Hedge).
  unfold forEach_callback, resolve_target.
  change (toLowerCase (GeneratedItem.label it)) with (item_key it).
  rewrite Hk, Hn, Hfill. unfold add_edge; simpl. rewrite Hedge.
  apply MergeState_eta.
Qed.

Lemma add_edge_settles src it tid st :
  negb (existsb (edge_matches (GraphNode.id src) tid)
          (nextEdges (add_edge src it tid st)))
  && negb (bool_decide (GraphNode.id src = tid)) = false.
Proof.
  unfold add_edge.
  destruct (existsb _ (nextEdges st)) eqn:Hex; simpl; [by rewrite Hex|].
  destruct (bool_decide (GraphNode.id src = tid)) eqn:Heq; simpl.
  - by rewrite andb_false_r.
  - rewrite existsb_app. simpl. unfold edge_matches at 2, strict_eq. simpl.
    rewrite !bool_decide_eq_true_2 by done. simpl. by rewrite orb_true_r.
Qed.

Lemma backfill_settles n it :
  negb (truthy_opt_string (GraphNode.explanation (backfilled n it)))
  && truthy_string (GeneratedItem.explanation it) = false.
Proof.
  unfold backfilled. case_decide as Hd.
  - destruct Hd as [_ Hne]. simpl. unfold truthy_string.
    rewrite bool_decide_eq_false_2 by done. reflexivity.
  - rewrite backfill_test. by apply bool_decide_eq_false_2.
Qed.

Lemma forEach_callback_settles src env it st :
  index_sound st -> settled src it (forEach_callback src env it st).
Proof.
  intros Hs.
  destruct (callback_cases src env it st Hs)
    as [(slot & n & Hk & Hn & Hkey & ->) | [Hk ->]].
  - exists slot, (backfilled n it).
    rewrite add_edge_index, add_edge_nodes; simpl.
    split; [done|]. split; [|split].
    + apply list_lookup_insert_eq. by eapply lookup_lt_Some.
    + apply backfill_settles.
    + rewrite backfilled_id. apply add_edge_settles.
  - exists (length (nextNodes st)), (newNode src env it).
    rewrite add_edge_index, add_edge_nodes; simpl.
    split; [apply lookup_insert_eq|]. split; [|split].
    + by rewrite lookup_app_r, Nat.sub_diag.
    + unfold truthy_opt_string. by destruct (truthy_string _).
    + apply add_edge_settles.
Qed.

Lemma existsb_mono {A} (f : A -> bool) (l extra : list A) :
  existsb f l = true -> existsb f (l ++ extra) = true.
Proof. intros H. by rewrite existsb_app, H. Qed.

(** A later iteration leaves a settled item settled. *)
Lemma forEach_callback_keeps_settled src env it it' st :
  index_sound st -> settled src it st ->
  settled src it (forEach_callback src env it' st).
Proof.
  intros Hs (slot & n & Hk & Hn & Hfill & Hedge).
  destruct (forEach_callback_edges toLowerCase src env it' st) as [extra Hex].
  assert (forall m, GraphNode.id m = GraphNode.id n ->
    negb (existsb (edge_matches (GraphNode.id src) (GraphNode.id m))
            (nextEdges (forEach_callback src env it' st)))
    && negb (bool_decide (GraphNode.id src = GraphNode.id m)) = false) as Hedge'.
  { intros m ->. rewrite Hex.
    destruct (existsb _ (nextEdges st)) eqn:He; simpl in Hedge.
    - by rewrite existsb_mono.
    - rewrite Hedge. by rewrite andb_false_r. }
  destruct (callback_cases src env it' st Hs)
    as [(slot' & n' & Hk' & Hn' & Hkey' & Heq) | [Hk' Heq]];
    rewrite Heq in Hedge' |- *; clear Heq.
  - destruct (decide (slot = slot')) as [<-|Hd].
    + assert (n' = n) as -> by congruence.
      exists slot, (backfilled n it').
      rewrite add_edge_index, add_edge_nodes; simpl.
      split; [done|]. split; [|split].
      * apply list_lookup_insert_eq. by eapply lookup_lt_Some.
      * unfold backfilled.
        destruct (decide (no_cached_explanation n /\ _)) as [[_ Hne]|_];
          [|exact Hfill].
        simpl. unfold truthy_string at 1.
        rewrite bool_decide_eq_false_2 by done. reflexivity.
      * apply Hedge'. apply backfilled_id.
    + exists slot, n. rewrite add_edge_index, add_edge_nodes; simpl.
      split; [done|]. split; [|split]; [|done|by apply Hedge'].
      by rewrite list_lookup_insert_ne.
  - exists slot, n. rewrite add_edge_index, add_edge_nodes; simpl.
    split; [|split; [|split]]; [| |done|by apply Hedge'].
    + rewrite lookup_insert_ne; [done|]. intros Heq. congruence.
    + by apply lookup_app_l_Some.
Qed.

Lemma forEach_settles src env items : forall i st,
  index_sound st ->
  (forall it, it ∈ items -> settled src it (forEach src env i items st))
  /\ (forall it, settled src it st -> settled src it (forEach src env i items st)).
Proof.
  induction items as [|it0 items IH]; intros i st Hs; simpl.
  - split; [by intros it ?%elem_of_nil | done].
  - destruct (IH (S i) _ (callback_sound src (env i) it0 st Hs)) as [IH1 IH2].
    split.
    + intros it [->|Hin]%elem_of_cons; [|by apply IH1].
      by apply IH2, forEach_callback_settles.
    + intros it Hit. by apply IH2, forEach_callback_keeps_settled.
Qed.

Lemma forEach_fixed src env items : forall i st,
  (forall it, it ∈ items -> settled src it st) -> forEach src env i items st = st.
Proof.
  induction items as [|it0 items IH]; intros i st Hall; simpl; [done|].
  rewrite settled_fixed by (apply Hall, list_elem_of_here).
  apply IH. intros it Hin. by apply Hall, list_elem_of_further.
Qed.

(** X1.  Merging a batch into the result of merging it, from the same source, is
    a no-op, whatever the clock and [Math.random()] give the second time. *)
Theorem addToGraph_idempotent g src items env env' :
  addToGraph (addToGraph g src items env) src items env'
  = addToGraph g src items env.
Proof.
  unfold addToGraph. simpl.
  set (st := forEach src env 0 items (initial_state g)).
  assert (index_sound st) as Hs
    by apply forEach_sound, initial_state_sound.
  assert (index_canonical st) as Hc
    by (apply forEach_canonical; [apply initial_state_sound | reflexivity]).
  assert (initial_state (mkGraphData (nextNodes st) (nextEdges st)) = st)
    as ->.
  { unfold initial_state; simpl. rewrite <- Hc. apply MergeState_eta. }
  rewrite forEach_fixed; [done|].
  apply (forEach_settles src env items 0 (initial_state g)), initial_state_sound.
Qed.


(** *** Labels stay distinct *)

Lemma forEach_callback_distinct src env it st :
  index_sound st -> index_exact st ->
  NoDup (key <$> nextNodes st) ->
  NoDup (key <$> nextNodes (forEach_callback src env it st)).
Proof.
  intros Hs Hx Hnd.
  destruct (callback_cases src env it st Hs)
    as [(slot & n & Hk & Hn & Hkey & ->) | [Hk ->]];
    rewrite add_edge_nodes; simpl.
  - by rewrite (keys_backfill toLowerCase).
  - rewrite fmap_app. apply NoDup_app. split; [done|]. split.
    + intros k Hin Hk'. apply list_elem_of_singleton in Hk'. subst k.
      apply Hx in Hin. change (key (newNode src env it)) with (item_key it) in Hin.
      rewrite Hk in Hin. by destruct Hin.
    + apply NoDup_singleton.
Qed.

Lemma forEach_distinct src env items : forall i st,
  index_sound st -> index_exact st ->
  NoDup (key <$> nextNodes st) ->
  NoDup (key <$> nextNodes (forEach src env i items st)).
Proof.
  induction items as [|it items IH]; intros i st Hs Hx Hnd; simpl; [done|].
  apply IH; [by apply callback_sound
            | by apply (forEach_callback_exact toLowerCase)
            | by apply forEach_callback_distinct].
Qed.

(** X2.  If no two nodes of the graph have the same lower-cased label, no two
    nodes of the merged graph have. *)
Theorem addToGraph_labels_distinct g src items env :
  NoDup (key <$> nodes g) ->
  NoDup (key <$> nodes (addToGraph g src items env)).
Proof.
  unfold addToGraph; simpl. intros Hnd.
  apply forEach_distinct;
    [apply initial_state_sound | apply initial_state_exact | done].
Qed.

(** *** The edges that a merge adds *)

Lemma add_edge_added src it tid st :
  nextEdges (add_edge src it tid st) = nextEdges st
  \/ (GraphNode.id src <> tid
      /\ nextEdges (add_edge src it tid st)
         = nextEdges st
           ++ [GraphEdge.mk (EId (GraphNode.id src)) (EId tid)
                 (GeneratedItem.relation it)
                 (Some (getColorForType
                          (relationType_string (GeneratedItem.relationType it))))]).
Proof.
  unfold add_edge. destruct (existsb _ _); simpl; [by left|].
  case_bool_decide; simpl; [by left | by right].
Qed.

(** What one iteration appends: nothing, or the edge from the source to the
    node the item resolves to. *)
Lemma forEach_callback_added src env it st :
  index_sound st ->
  nextEdges (forEach_callback src env it st) = nextEdges st
  \/ exists n,
       n ∈ nextNodes (forEach_callback src env it st)
       /\ key n = item_key it
       /\ GraphNode.id n <> GraphNode.id src
       /\ nextEdges (forEach_callback src env it st)
          = nextEdges st
            ++ [GraphEdge.mk (EId (GraphNode.id src)) (EId (GraphNode.id n))
                  (GeneratedItem.relation it)
                  (Some (getColorForType
                           (relationType_string (GeneratedItem.relationType it))))].
Proof.
  intros Hs.
  destruct (callback_cases src env it st Hs)
    as [(slot & n & Hk & Hn & Hkey & ->) | [Hk ->]].
  - destruct (add_edge_added src it (GraphNode.id n)
                (mkMergeState (<[slot:=backfilled n it]> (nextNodes st))
                   (nextEdges st) (nodeMap st))) as [->|[Hne ->]]; [by left|].
    right. exists (backfilled n it). rewrite add_edge_nodes; simpl.
    split; [|split; [|split]].
    + eapply list_elem_of_lookup_2, list_lookup_insert_eq. by eapply lookup_lt_Some.
    + by rewrite (backfilled_key toLowerCase).
    + rewrite backfilled_id. intros Heq. by apply Hne.
    + by rewrite backfilled_id.
  - destruct (add_edge_added src it (GraphNode.id (newNode src env it))
                (mkMergeState (nextNodes st ++ [newNode src env it])
                   (nextEdges st)
                   (<[item_key it:=length (nextNodes st)]> (nodeMap st))))
      as [->|[Hne ->]]; [by left|].
    right. exists (newNode src env it). rewrite add_edge_nodes; simpl.
    split; [|split; [|split]]; [|done|intros Heq; by apply Hne|done].
    apply elem_of_app. right. by apply list_elem_of_singleton.
Qed.

Lemma forEach_added src env items : forall i st,
  index_sound st ->
  exists extra,
    nextEdges (forEach src env i items st) = nextEdges st ++ extra
    /\ (length extra <= length items)%nat
    /\ Forall (fun e =>
         exists it n,
           it ∈ items
           /\ n ∈ nextNodes (forEach src env i items st)
           /\ key n = item_key it
           /\ GraphNode.id n <> GraphNode.id src
           /\ e = GraphEdge.mk (EId (GraphNode.id src)) (EId (GraphNode.id n))
                  (GeneratedItem.relation it)
                  (Some (getColorForType
                           (relationType_string (GeneratedItem.relationType it)))))
         extra.
Proof.
  induction items as [|it0 items IH]; intros i st Hs; simpl.
  - exists []. rewrite app_nil_r. repeat split; [done|constructor].
  - pose proof (callback_sound src (env i) it0 st Hs) as Hs'.
    destruct (IH (S i) _ Hs') as (extra & Heq & Hlen & Hall).
    assert (Forall (fun e =>
         exists it n,
           it ∈ it0 :: items
           /\ n ∈ nextNodes (forEach src env (S i) items (forEach_callback src (env i) it0 st))
           /\ key n = item_key it
           /\ GraphNode.id n <> GraphNode.id src
           /\ e = GraphEdge.mk (EId (GraphNode.id src)) (EId (GraphNode.id n))
                  (GeneratedItem.relation it)
                  (Some (getColorForType
                           (relationType_string (GeneratedItem.relationType it)))))
         extra) as Hall'.
    { eapply Forall_impl; [exact Hall|]. intros e (it & n & Hit & H).
      exists it, n. split; [by apply list_elem_of_further | exact H]. }
    destruct (forEach_callback_added src (env i) it0 st Hs)
      as [Hsame | (n & Hn & Hk & Hne & Hadd)].
    + exists extra. rewrite Heq, Hsame. repeat split; [lia | done].
    + destruct (forEach_node_stays toLowerCase src env items (S i) _ n [] Hs' Hn)
        as (n' & Hn' & Hk' & Hi' & _); [by intros e ?%elem_of_nil|].
      eexists (_ :: extra). rewrite Heq, Hadd, <- app_assoc. simpl.
      repeat split; [lia|]. constructor; [|done].
      exists it0, n'. rewrite Hi'.
      repeat split; [apply list_elem_of_here | done | congruence | congruence].
Qed.

(** X3.  The edges of the input stay, in their order; what is appended is at most
    one edge per item, from the source id to the id of a node of the result
    that carries the label of that item and is not the source, with the
    relation of the item and the colour of its relation type. *)
Theorem addToGraph_added_edges g src items env :
  exists extra,
    edges (addToGraph g src items env) = edges g ++ extra
    /\ (length extra <= length items)%nat
    /\ Forall (fun e =>
         exists it n,
           it ∈ items
           /\ n ∈ nodes (addToGraph g src items env)
           /\ key n = item_key it
           /\ GraphNode.id n <> GraphNode.id src
           /\ e = GraphEdge.mk (EId (GraphNode.id src)) (EId (GraphNode.id n))
                  (GeneratedItem.relation it)
                  (Some (getColorForType
                           (relationType_string (GeneratedItem.relationType it)))))
         extra.
Proof.
  unfold addToGraph; simpl.
  apply (forEach_added src env items 0 (initial_state g)), initial_state_sound.
Qed.

(** X4.  A merge into a graph without self-loops gives a graph without
    self-loops. *)
Theorem addToGraph_no_self_loops g src items env :
  no_self_loops (edges g) ->
  no_self_loops (edges (addToGraph g src items env)).
Proof.
  intros Hg. unfold addToGraph; simpl.
  destruct (forEach_added src env items 0 (initial_state g) (initial_state_sound toLowerCase g))
    as (extra & -> & _ & Hall).
  apply Forall_app. split; [exact Hg|].
  eapply Forall_impl; [exact Hall|].
  intros e (it & n & _ & _ & _ & Hne & ->). simpl. congruence.
Qed.


(** *** The nodes that a merge keeps and adds *)

Lemma same_but_explanation_refl n : same_but_explanation n n.
Proof. reflexivity. Qed.

Lemma same_but_explanation_trans n1 n2 n3 :
  same_but_explanation n1 n2 -> same_but_explanation n2 n3 ->
  same_but_explanation n1 n3.
Proof. unfold same_but_explanation. congruence. Qed.

Lemma same_but_explanation_backfilled n it : same_but_explanation n (backfilled n it).
Proof. unfold backfilled. by case_decide. Qed.

Lemma Forall2_same_refl (ns : list GraphNode.t) : Forall2 same_but_explanation ns ns.
Proof. induction ns; constructor; [apply same_but_explanation_refl | done]. Qed.

Lemma forEach_nodes src env items : forall i st,
  index_sound st ->
  exists kept new,
    nextNodes (forEach src env i items st) = kept ++ new
    /\ Forall2 same_but_explanation (nextNodes st) kept
    /\ Forall (fun n =>
         exists j it,
           items !! j = Some it
           /\ same_but_explanation (newNode src (env (i + j)%nat) it) n) new.
Proof.
  induction items as [|it0 items IH]; intros i st Hs; simpl.
  - exists (nextNodes st), []. rewrite app_nil_r.
    repeat split; [apply Forall2_same_refl | constructor].
  - pose proof (callback_sound src (env i) it0 st Hs) as Hs'.
    destruct (IH (S i) _ Hs') as (kept & new & Heq & Hkept & Hnew).
    assert (Forall (fun n =>
         exists j it,
           (it0 :: items) !! j = Some it
           /\ same_but_explanation (newNode src (env (i + j)%nat) it) n) new) as Hnew'.
    { eapply Forall_impl; [exact Hnew|]. intros n (j & it & Hj & Hsame).
      exists (S j), it. split; [done|].
      by replace (i + S j)%nat with (S i + j)%nat by lia. }
    destruct (callback_cases src (env i) it0 st Hs)
      as [(slot & n & Hk & Hn & Hkey & Hcb) | [Hk Hcb]];
      rewrite Hcb, add_edge_nodes in Hkept; simpl in Hkept.
    + exists kept, new. repeat split; [done| |done].
      eapply Forall2_trans; [apply same_but_explanation_trans| |exact Hkept].
      rewrite <- (list_insert_id (nextNodes st) slot n) at 1 by done.
      apply Forall2_insert; [apply Forall2_same_refl|].
      apply same_but_explanation_backfilled.
    + apply Forall2_app_inv_l in Hkept as (k1 & k2 & Hk1 & Hk2 & ->).
      apply Forall2_cons_inv_l in Hk2 as (n' & k2' & Hn' & Hnil & ->).
      apply Forall2_nil_inv_l in Hnil as ->.
      exists k1, (n' :: new). rewrite Heq, <- app_assoc. simpl.
      repeat split; [done|]. constructor; [|done].
      exists 0%nat, it0. split; [done|]. by rewrite Nat.add_0_r.
Qed.

(** X5.  The nodes of the input keep their slots and every field but the
    explanation; each node behind them is the object literal that the loop
    builds for one of the items, up to a later backfill of its explanation. *)
Theorem addToGraph_nodes g src items env :
  exists kept new,
    nodes (addToGraph g src items env) = kept ++ new
    /\ Forall2 same_but_explanation (nodes g) kept
    /\ Forall (fun n =>
         exists j it,
           items !! j = Some it
           /\ same_but_explanation (newNode src (env j) it) n) new.
Proof.
  unfold addToGraph; simpl.
  apply (forEach_nodes src env items 0 (initial_state g)), initial_state_sound.
Qed.

Lemma same_but_explanation_id n n' :
  same_but_explanation n n' -> GraphNode.id n' = GraphNode.id n.
Proof. unfold same_but_explanation, set_explanation. by intros [= -> _]. Qed.

Lemma same_but_explanation_key n n' :
  same_but_explanation n n' -> key n' = key n.
Proof.
  unfold same_but_explanation, set_explanation, key.
  by intros [= _ -> _].
Qed.

End MergeMore.

(** *** The two palettes *)


(** X9.  The five relation types get five different edge colours. *)
Theorem getColorForType_injective (r1 r2 : RelationType) :
  getColorForType (relationType_string r1) = getColorForType (relationType_string r2) ->
  r1 = r2.
Proof. destruct r1, r2; vm_compute; congruence. Qed.

(** *** On concrete inputs *)

Lemma addToGraph_labels_distinct_witness :
  NoDup (key ascii_toLowerCase
           <$> nodes (addToGraph ascii_toLowerCase octopus_graph octopus
                        octopus_items sample_entropy)).
Proof.
  apply (addToGraph_labels_distinct ascii_toLowerCase octopus_graph octopus
           octopus_items sample_entropy).
  by_evaluation.
Defined.

Lemma addToGraph_no_self_loops_witness :
  no_self_loops
    (edges (addToGraph ascii_toLowerCase unresolved_graph alpha
              [mk_item "Gamma" "Third letter."; mk_item "alpha" ""] sample_entropy)).
Proof.
  apply (addToGraph_no_self_loops ascii_toLowerCase unresolved_graph alpha
           [mk_item "Gamma" "Third letter."; mk_item "alpha" ""] sample_entropy).
  by_evaluation.
Defined.

Lemma addToGraph_no_parallel_unresolved_witness :
  no_parallel_edges
    (edges (addToGraph ascii_toLowerCase unresolved_graph alpha
              [mk_item "beta" ""; mk_item "Gamma" "Third letter."] sample_entropy))
  = true.
Proof.
  apply (addToGraph_no_parallel_unresolved ascii_toLowerCase unresolved_graph alpha
           [mk_item "beta" ""; mk_item "Gamma" "Third letter."] sample_entropy).
  - by_evaluation.
  - reflexivity.
Defined.

Lemma newNode_near_witness :
  exists vx vy,
    GraphNode.x (newNode octopus (sample_entropy 0) (mk_item "Cephalopod" ""))
    = Some vx
    /\ GraphNode.y (newNode octopus (sample_entropy 0) (mk_item "Cephalopod" ""))
       = Some vy
    /\ (round_double ((400 # 1) - 30) <= vx)%Q /\ (vx <= round_double ((400 # 1) + 30))%Q
    /\ (round_double ((300 # 1) - 30) <= vy)%Q /\ (vy <= round_double ((300 # 1) + 30))%Q.
Proof.
  apply (newNode_near octopus (sample_entropy 0) (mk_item "Cephalopod" "")
           (400 # 1) (300 # 1)); try reflexivity; vm_compute; discriminate.
Defined.


Lemma getColorForType_injective_witness : negative = negative.
Proof. apply getColorForType_injective. reflexivity. Defined.

(** * More about the gesture listeners *)

(** ** A press, a move and a release *)

(** X12.  A drag event before the timer is due cancels the long press for good:
    whenever the pointer is released, neither callback is called, not even
    when a click is dispatched to the node, and no timer is left to fire
    later.  The listeners of the node are those of one run. *)
Theorem drag_cancels_long_press (p : Page) (d : string) (r : nat) (v : EffectLocals)
    (t0 t1 t2 : Z) :
  elements p !! d = Some (mkListeners r r) ->
  runs p !! r = Some v ->
  timeouts p = [] ->
  t0 <= t1 < t0 + 1000 ->
  calls (run [(t0, DragStart d); (t1, Drag d); (t2, DragEnd d); (t2, Click d)] p)
  = calls p
  /\ timeouts (run [(t0, DragStart d); (t1, Drag d); (t2, DragEnd d); (t2, Click d)] p)
     = [].
Proof.
  intros Helement Hlocals Hidle Ht. unfold run; simpl.
  rewrite (step_press p d r r Helement Hidle).
  assert (step
            (mkPage
               (alter (fun _ => mkEffectLocals false (Some (next_handle p)) false) r (runs p))
               (elements p) (exiting p) [mkTimeout (next_handle p) (t0 + 1000) r d]
               (S (next_handle p)) (calls p))
            (t1, Drag d)
          = mkPage (alter (fun _ => mkEffectLocals true None false) r (runs p))
              (elements p) (exiting p) [] (S (next_handle p)) (calls p)) as ->.
  { unfold step, fire_due; simpl.
    rewrite !filter_cons, !filter_nil; simpl.
    repeat case_decide; try lia. simpl. rewrite Helement.
    unfold on_drag, cancel_long_press; simpl.
    rewrite list_lookup_alter_eq, Hlocals; simpl.
    unfold with_locals, clearTimeout; simpl.
    rewrite filter_cons, filter_nil, decide_False by (simpl; tauto).
    by rewrite !list_alter_alter_eq. }
  unfold step, fire_due; simpl. rewrite Helement.
  unfold on_end, cancel_long_press; simpl.
  rewrite list_lookup_alter_eq, Hlocals; simpl. rewrite Helement.
  unfold on_click; simpl. by rewrite list_lookup_alter_eq, Hlocals.
Qed.

Lemma drag_cancels_long_press_witness :
  calls (run [(2000, DragStart "X"); (2400, Drag "X"); (4000, DragEnd "X");
              (4000, Click "X")] (run drawn_now empty_page))
  = calls (run drawn_now empty_page)
  /\ timeouts (run [(2000, DragStart "X"); (2400, Drag "X"); (4000, DragEnd "X");
                    (4000, Click "X")] (run drawn_now empty_page))
     = [].
Proof.
  apply (drag_cancels_long_press (run drawn_now empty_page) "X" 0
           (mkEffectLocals false None false) 2000 2400 4000);
    try reflexivity. lia.
Defined.

(** ** The two gestures on a node with a click listener of a later run *)

Lemma click_after_long_press_when_stale_witness :
  calls (run [(2000, DragStart "X"); (3500, DragEnd "X"); (3500, Click "X")]
           (run drawn_earlier empty_page))
  = calls (run drawn_earlier empty_page) ++ [onNodeLongPress "X"; onNodeClick "X"].
Proof.
  eapply (click_after_long_press_when_stale (run drawn_earlier empty_page) "X" 0 1);
    first [reflexivity | lia].
Defined.

Lemma click_swallowed_when_stale_witness :
  calls (run [(5000, DragStart "X"); (5100, DragEnd "X"); (5100, Click "X")]
           (run drag_elsewhere empty_page))
  = calls (run drag_elsewhere empty_page)
  /\ timeouts (run [(5000, DragStart "X"); (5100, DragEnd "X"); (5100, Click "X")]
                 (run drag_elsewhere empty_page))
     = [].
Proof.
  eapply (click_swallowed_when_stale (run drag_elsewhere empty_page) "X" 0 1);
    first [reflexivity | lia].
Defined.

(** ** Every run of the effect *)

Lemma effect_run_join (p : Page) (r : nat) (ids : list string) :
  forall (m : gmap string Listeners) (d : string),
    foldl (fun (m : gmap string Listeners) (d : string) =>
             match elements p !! d with
             | Some l => <[d := mkListeners (drag_run l) r]> m
             | None => <[d := mkListeners r r]> m
             end) m ids !! d
    = if decide (d ∈ ids)
      then Some (mkListeners (from_option drag_run r (elements p !! d)) r)
      else m !! d.
Proof.
  induction ids as [|d0 ids IH]; intros m d; cbn [foldl].
  - rewrite decide_False; [done | apply not_elem_of_nil].
  - rewrite IH. destruct (decide (d ∈ ids)) as [Hin|Hout].
    + rewrite decide_True; [done | by apply list_elem_of_further].
    + destruct (decide (d = d0)) as [->|Hne].
      * rewrite decide_True by apply list_elem_of_here.
        destruct (elements p !! d0); simpl; by rewrite lookup_insert_eq.
      * rewrite decide_False by (intros [?|?]%elem_of_cons; done).
        destruct (elements p !! d0); by rewrite lookup_insert_ne.
Qed.

Lemma effect_run_listeners (ids : list string) (p : Page) (d : string) :
  elements (effect_run ids p) !! d
  = if decide (d ∈ ids)
    then Some (mkListeners (from_option drag_run (length (runs p)) (elements p !! d))
                 (length (runs p)))
    else elements p !! d.
Proof. unfold effect_run; simpl. by rewrite effect_run_join. Qed.

(** ** Every trace *)

Lemma with_locals_shape r f p :
  length (runs (with_locals r f p)) = length (runs p)
  /\ elements (with_locals r f p) = elements p
  /\ timeouts (with_locals r f p) = timeouts p
  /\ calls (with_locals r f p) = calls p.
Proof. unfold with_locals; simpl. by rewrite length_alter. Qed.

Lemma cancel_long_press_shape r p :
  length (runs (cancel_long_press r p)) = length (runs p)
  /\ elements (cancel_long_press r p) = elements p
  /\ (length (timeouts (cancel_long_press r p)) <= length (timeouts p))%nat
  /\ calls (cancel_long_press r p) = calls p.
Proof.
  unfold cancel_long_press.
  destruct (runs p !! r) as [[? [h|] ?]|]; simpl; try (repeat split; done || lia).
  rewrite length_alter. repeat split; try done. apply length_filter.
Qed.

Lemma on_timeout_shape tm p :
  length (runs (on_timeout tm p)) = length (runs p)
  /\ elements (on_timeout tm p) = elements p
  /\ timeouts (on_timeout tm p) = timeouts p
  /\ calls (on_timeout tm p) = calls p ++ [onNodeLongPress (timeout_datum tm)].
Proof. unfold on_timeout, with_locals; simpl. by rewrite length_alter. Qed.

Lemma long_press_calls_snoc cs d :
  long_press_calls (cs ++ [onNodeLongPress d]) = S (long_press_calls cs)
  /\ click_calls (cs ++ [onNodeLongPress d]) = click_calls cs.
Proof.
  unfold long_press_calls, click_calls.
  rewrite !filter_app, !length_app. simpl. split; lia.
Qed.

Lemma click_calls_snoc cs d :
  long_press_calls (cs ++ [onNodeClick d]) = long_press_calls cs
  /\ click_calls (cs ++ [onNodeClick d]) = S (click_calls cs).
Proof.
  unfold long_press_calls, click_calls.
  rewrite !filter_app, !length_app. simpl. split; lia.
Qed.

Lemma fire_timeouts_shape ready : forall p,
  let q := foldl (fun q tm => on_timeout tm q) p ready in
  length (runs q) = length (runs p)
  /\ elements q = elements p
  /\ timeouts q = timeouts p
  /\ long_press_calls (calls q) = (long_press_calls (calls p) + length ready)%nat
  /\ click_calls (calls q) = click_calls (calls p).
Proof.
  induction ready as [|tm ready IH]; intros p; simpl.
  - repeat split; lia.
  - destruct (IH (on_timeout tm p)) as (H1 & H2 & H3 & H4 & H5).
    destruct (on_timeout_shape tm p) as (G1 & G2 & G3 & G4).
    destruct (long_press_calls_snoc (calls p) (timeout_datum tm)) as [L1 L2].
    rewrite H1, H2, H3, H4, H5, G1, G2, G3, G4, L1, L2.
    repeat split; lia.
Qed.

Lemma filter_split {A} (P : A -> Prop) `{forall x, Decision (P x)} (l : list A) :
  (length (filter P l) + length (filter (fun x => ~ P x) l) = length l)%nat.
Proof.
  induction l as [|x l IH]; [done|].
  rewrite !filter_cons. destruct (decide (P x)), (decide (~ P x)); simpl; try lia; tauto.
Qed.

(** When the due timers fire, each of them leaves the list of pending timers
    and calls the long-press callback once. *)
Lemma fire_due_shape now p :
  length (runs (fire_due now p)) = length (runs p)
  /\ elements (fire_due now p) = elements p
  /\ (long_press_calls (calls (fire_due now p)) + length (timeouts (fire_due now p))
      = long_press_calls (calls p) + length (timeouts p))%nat
  /\ click_calls (calls (fire_due now p)) = click_calls (calls p).
Proof.
  unfold fire_due.
  destruct (fire_timeouts_shape (filter (fun tm => due tm <= now) (timeouts p))
              (mkPage (runs p) (elements p) (exiting p)
                 (filter (fun tm => ~ due tm <= now) (timeouts p))
                 (next_handle p) (calls p))) as (H1 & H2 & H3 & H4 & H5).
  simpl in *. rewrite H1, H2, H3, H4, H5.
  pose proof (filter_split (fun tm => due tm <= now) (timeouts p)).
  repeat split; lia.
Qed.

Lemma cancel_long_press_exiting r p :
  exiting (cancel_long_press r p) = exiting p.
Proof.
  unfold cancel_long_press. by destruct (runs p !! r) as [[? [h|] ?]|].
Qed.

Lemma fire_timeouts_exiting ready : forall p,
  exiting (foldl (fun q tm => on_timeout tm q) p ready) = exiting p.
Proof.
  induction ready as [|tm ready IH]; intros p; simpl; [done|]. by rewrite IH.
Qed.

Lemma fire_due_exiting now p : exiting (fire_due now p) = exiting p.
Proof. unfold fire_due. by rewrite fire_timeouts_exiting. Qed.

Lemma step_listeners p tev : listeners_in_order p -> listeners_in_order (step p tev).
Proof.
  intros Hinv d l. unfold step.
  destruct (fire_due_shape (fst tev) p) as (Hr & He & _ & _).
  pose proof (fire_due_exiting (fst tev) p) as Hx.
  set (q := fire_due (fst tev) p) in *.
  assert (forall q', length (runs q') = length (runs q) -> elements q' = elements q ->
            exiting q' = exiting q ->
            elements q' !! d = Some l ->
            (drag_run l <= click_run l < length (runs q'))%nat
            /\ (d ∉ exiting q' -> S (click_run l) = length (runs q'))) as Hsame.
  { intros q' Hr' He' Hx' Hl. rewrite Hr', Hr, Hx', Hx. apply (Hinv d).
    by rewrite <- He, <- He'. }
  destruct (snd tev) as [ids|d0|d0|d0|d0|d0]; cbn [dispatch].
  - rewrite effect_run_listeners. unfold effect_run. cbn [runs exiting].
    rewrite length_app, Hr. cbn [length].
    destruct (decide (d ∈ ids)) as [Hin|Hout].
    + intros [= <-]. cbn [drag_run click_run]. split; [|lia].
      destruct (elements q !! d) as [l0|] eqn:Hl0; cbn [from_option]; [|lia].
      rewrite He in Hl0. apply Hinv in Hl0. lia.
    + intros Hl. split.
      * rewrite He in Hl. apply Hinv in Hl. lia.
      * intros Hnot. exfalso. apply Hnot. apply elem_of_union_r, elem_of_difference.
        split; [by apply elem_of_dom | by rewrite elem_of_list_to_set].
  - destruct (elements q !! d0); apply Hsame; try done; simpl.
    by rewrite length_alter.
  - destruct (elements q !! d0) as [l0|]; apply Hsame; try done; unfold on_drag.
    + destruct (with_locals_shape (drag_run l0)
                  (fun v => mkEffectLocals true (longPressTimer v) (longPressTriggered v))
                  (cancel_long_press (drag_run l0) q)) as (-> & _).
      apply cancel_long_press_shape.
    + destruct (with_locals_shape (drag_run l0)
                  (fun v => mkEffectLocals true (longPressTimer v) (longPressTriggered v))
                  (cancel_long_press (drag_run l0) q)) as (_ & -> & _).
      apply cancel_long_press_shape.
    + unfold with_locals; cbn [exiting]. apply cancel_long_press_exiting.
  - destruct (elements q !! d0) as [l0|]; apply Hsame; try done;
      first [apply cancel_long_press_shape | apply cancel_long_press_exiting].
  - destruct (elements q !! d0) as [l0|]; apply Hsame; try done;
      unfold on_click; destruct (runs q !! _) as [v|]; try done;
      by destruct (isDragging v || longPressTriggered v).
  - unfold on_exit_end. case_bool_decide as Hex; [|by apply Hsame].
    cbn [elements exiting runs]. intros Hl.
    apply lookup_delete_Some in Hl as [Hne Hl].
    rewrite He in Hl. apply Hinv in Hl as [Hord Hlast].
    rewrite Hr. split; [done|]. intros Hnot. apply Hlast. rewrite <- Hx.
    intros Hin. apply Hnot. apply elem_of_difference. split; [done|].
    by rewrite elem_of_singleton.
Qed.

(** X16.  Whatever has happened on the page since it was opened (runs of the
    effect, drag events, clicks, timers, ends of exit transitions): the drag
    listeners of every node element are of the run of its click listener or
    of an earlier one, and the click listener of an element that is not in an
    exit transition is the one of the latest run of the effect.  (An element
    in an exit transition can have the click listener of an older run.) *)
Theorem listeners_of_a_node (trace : list (Z * Event)) (d : string) (l : Listeners) :
  elements (run trace empty_page) !! d = Some l ->
  (drag_run l <= click_run l < length (runs (run trace empty_page)))%nat
  /\ (d ∉ exiting (run trace empty_page) ->
      S (click_run l) = length (runs (run trace empty_page))).
Proof.
  revert d l. change (listeners_in_order (run trace empty_page)).
  induction trace as [|tev trace IH] using rev_ind.
  - intros d l. simpl. by rewrite lookup_empty.
  - unfold run. rewrite foldl_app. simpl. apply step_listeners. exact IH.
Qed.

Lemma listeners_of_a_node_witness :
  (drag_run (mkListeners 0 1) <= click_run (mkListeners 0 1)
   < length (runs (run drag_elsewhere empty_page)))%nat
  /\ ("X" ∉ exiting (run drag_elsewhere empty_page) ->
      S (click_run (mkListeners 0 1)) = length (runs (run drag_elsewhere empty_page))).
Proof.
  apply (listeners_of_a_node drag_elsewhere "X" (mkListeners 0 1)). reflexivity.
Defined.

(** A node that has left the data can still be clicked while its exit
    transition runs, and its click listener is the one of the run before; once
    the transition has ended the element is gone. *)
Example click_on_leaving_node :
  calls (run [(0, Render ["X"]); (1000, Render ["Y"]); (1100, Click "X")] empty_page)
  = [onNodeClick "X"]
  /\ calls (run [(0, Render ["X"]); (1000, Render ["Y"]); (1400, ExitEnd "X");
                 (1500, Click "X")] empty_page)
     = [].
Proof. split; vm_compute; reflexivity. Qed.

Lemma step_counts p tev :
  (long_press_calls (calls (step p tev)) + length (timeouts (step p tev))
   <= long_press_calls (calls p) + length (timeouts p)
      + (if is_press tev then 1 else 0))%nat
  /\ (click_calls (calls (step p tev))
      <= click_calls (calls p) + (if is_click tev then 1 else 0))%nat.
Proof.
  unfold step, is_press, is_click.
  destruct (fire_due_shape (fst tev) p) as (_ & _ & Hlp & Hck).
  set (q := fire_due (fst tev) p) in *.
  destruct (snd tev) as [ids|d0|d0|d0|d0|d0]; simpl.
  - lia.
  - destruct (elements q !! d0); simpl; [rewrite length_app; simpl|]; lia.
  - destruct (elements q !! d0) as [l0|]; [|lia]. unfold on_drag.
    destruct (with_locals_shape (drag_run l0)
                (fun v => mkEffectLocals true (longPressTimer v) (longPressTriggered v))
                (cancel_long_press (drag_run l0) q)) as (_ & _ & -> & ->).
    destruct (cancel_long_press_shape (drag_run l0) q) as (_ & _ & Hle & ->). lia.
  - destruct (elements q !! d0) as [l0|]; [|lia]. unfold on_end.
    destruct (cancel_long_press_shape (drag_run l0) q) as (_ & _ & Hle & ->). lia.
  - destruct (elements q !! d0) as [l0|]; [|lia]. unfold on_click.
    destruct (runs q !! _) as [v|]; [|lia].
    destruct (isDragging v || longPressTriggered v); [lia|]. simpl.
    destruct (click_calls_snoc (calls q) d0) as [-> ->]. lia.
  - unfold on_exit_end. case_bool_decide; simpl; lia.
Qed.

(** X17.  On every trace, the long-press callback is called at most once per press
    and the click callback at most once per click event; a timer that is
    still pending counts as a call to come. *)
Theorem callbacks_at_most_once (trace : list (Z * Event)) (p : Page) :
  (long_press_calls (calls (run trace p)) + length (timeouts (run trace p))
   <= long_press_calls (calls p) + length (timeouts p) + presses trace)%nat
  /\ (click_calls (calls (run trace p)) <= click_calls (calls p) + clicks trace)%nat.
Proof.
  induction trace as [|tev trace IH] using rev_ind.
  - simpl. unfold presses, clicks. simpl. lia.
  - unfold run in *. rewrite foldl_app. simpl.
    destruct (step_counts (foldl step p trace) tev) as [H1 H2].
    unfold presses, clicks in *. rewrite !filter_app, !length_app.
    rewrite !filter_cons, !filter_nil.
    destruct (is_press tev), (is_click tev); simpl; lia.
Qed.

(** * The oracle and the handlers of App.tsx *)

Lemma generateExplanation_truthy res : truthy_string (generateExplanation res) = true.
Proof.
  destruct res as [[text|]|]; simpl; try reflexivity.
  destruct (truthy_string text) eqn:Ht; [exact Ht | reflexivity].
Qed.

(** X18.  [generateExplanation] never returns the empty string.  It returns the
    text of the response when there is one and it is not empty, the sentence
    "No explanation available." when the response has no text or an empty
    one, and the sentence "Failed to generate explanation." when the request
    throws. *)
Theorem generateExplanation_never_empty res :
  generateExplanation res <> ""
  /\ generateExplanation res
     = match res with
       | Response (Some text) =>
           if decide (text = "") then "No explanation available." else text
       | Response None => "No explanation available."
       | Failure => "Failed to generate explanation."
       end.
Proof.
  split.
  - pose proof (generateExplanation_truthy res) as Ht. unfold truthy_string in Ht.
    intros Heq. by rewrite Heq in Ht.
  - destruct res as [[text|]|]; try reflexivity. simpl. unfold truthy_string.
    case_bool_decide; by case_decide.
Qed.

Lemma root_vs_new_id (suffix : string) (env : Entropy) src it :
  "root-" +:+ suffix <> GraphNode.id (newNode src env it).
Proof. simpl. discriminate. Qed.

Lemma NoDup_fmap_inj {A B} (f : A -> B) (l : list A) (a a' : A) :
  NoDup (f <$> l) -> a ∈ l -> a' ∈ l -> f a = f a' -> a = a'.
Proof.
  induction l as [|x l IH]; intros Hnd Ha Ha' Hf; [by apply elem_of_nil in Ha|].
  rewrite fmap_cons in Hnd. apply NoDup_cons in Hnd as [Hx Hnd].
  apply elem_of_cons in Ha as [->|Ha], Ha' as [->|Ha']; try done.
  - exfalso. apply Hx. rewrite Hf. by apply list_elem_of_fmap_2.
  - exfalso. apply Hx. rewrite <- Hf. by apply list_elem_of_fmap_2.
  - by apply IH.
Qed.

Section AppFacts.

Variable toLowerCase : string -> string.
Variable JSON_parse_items : string -> option (option (list GeneratedItem.t)).

Local Abbreviation key := (key toLowerCase).
Local Abbreviation item_key := (item_key toLowerCase).
Local Abbreviation addToGraph := (addToGraph toLowerCase).
Local Abbreviation generateRelatedNodes := (generateRelatedNodes JSON_parse_items).
Local Abbreviation oracle_failed := (oracle_failed JSON_parse_items).
Local Abbreviation handleSearch_settled :=
  (handleSearch_settled toLowerCase JSON_parse_items).
Local Abbreviation handleNodeLongPress_settled :=
  (handleNodeLongPress_settled toLowerCase JSON_parse_items).

Lemma oracle_failed_no_items res : oracle_failed res -> generateRelatedNodes res = [].
Proof.
  destruct res as [[text|]|]; simpl; try done.
  intros [->|[->| ->]]; [done| |]; by destruct (truthy_string text).
Qed.

(** X19.  A long press whose request comes to nothing (the request throws, the
    response has no text, the text does not parse, or it has no items)
    leaves the graph as it is, and clears both loading indicators. *)
Theorem failed_expansion_changes_nothing node res env st :
  oracle_failed res ->
  App.data (handleNodeLongPress_settled node res env st) = App.data st
  /\ App.loadingNodeId (handleNodeLongPress_settled node res env st) = None
  /\ App.isLoadingGraph (handleNodeLongPress_settled node res env st) = false
  /\ App.activeNodeId (handleNodeLongPress_settled node res env st)
     = App.activeNodeId st
  /\ App.explanation (handleNodeLongPress_settled node res env st)
     = App.explanation st.
Proof.
  intros Hfail. unfold handleNodeLongPress_settled. simpl.
  rewrite oracle_failed_no_items by done.
  unfold addToGraph; simpl. by destruct (App.data st).
Qed.


(** *** A search and its answer *)

Lemma with_root_explanation_absent rootId e (ns : list GraphNode.t) :
  rootId ∉ node_ids ns -> with_root_explanation rootId e <$> ns = ns.
Proof.
  induction ns as [|n ns IH]; intros Hout; [done|].
  rewrite fmap_cons. unfold node_ids in Hout. rewrite fmap_cons in Hout.
  apply not_elem_of_cons in Hout as [Hn Hns].
  rewrite IH by done. unfold with_root_explanation.
  by rewrite bool_decide_eq_false_2 by (intros Heq; by apply Hn).
Qed.

(** Where the nodes of a merged graph come from. *)
Lemma addToGraph_node_origin g src items env n :
  n ∈ nodes (addToGraph g src items env) ->
  (exists n0, n0 ∈ nodes g /\ same_but_explanation n0 n)
  \/ (exists j it, items !! j = Some it
                  /\ same_but_explanation (newNode src (env j) it) n).
Proof.
  unfold addToGraph; simpl. intros Hin.
  destruct (forEach_nodes toLowerCase src env items 0 (initial_state toLowerCase g)
              (initial_state_sound toLowerCase g))
    as (kept & new & Heq & Hkept & Hnew).
  rewrite Heq in Hin. apply elem_of_app in Hin as [Hin|Hin].
  - left. apply list_elem_of_lookup in Hin as [i Hi].
    destruct (Forall2_lookup_r _ _ _ _ _ Hkept Hi) as (n0 & Hn0 & Hsame).
    exists n0. split; [by eapply list_elem_of_lookup_2 | done].
  - right. by eapply Forall_forall in Hnew.
Qed.

(** X20.  When the answer to a search arrives and the graph is still the root that
    the search created, the result is a star: the root, now with its
    explanation, followed by one node for each distinct label of the answer
    other than the root's own; every edge runs from the root to one of these
    nodes and each of them has such an edge; both loading indicators are
    cleared. *)
Theorem search_answer_makes_star rootNode n0 suffix children rootExplanation env st :
  nodes (App.data st) = [n0] ->
  edges (App.data st) = [] ->
  GraphNode.id n0 = GraphNode.id rootNode ->
  GraphNode.id rootNode = "root-" +:+ suffix ->
  let st' := handleSearch_settled rootNode children rootExplanation env st in
  exists new,
    nodes (App.data st')
    = set_explanation n0 (generateExplanation rootExplanation) :: new
    /\ length new
       = length (remove_dups (filter (fun k => k <> key n0)
                                (item_key <$> generateRelatedNodes children)))
    /\ Forall (fun e => GraphEdge.source e = EId (GraphNode.id rootNode)
                        /\ exists n, n ∈ new /\ GraphEdge.target e = EId (GraphNode.id n))
         (edges (App.data st'))
    /\ (forall n, n ∈ new ->
          exists e, e ∈ edges (App.data st')
                    /\ GraphEdge.source e = EId (GraphNode.id rootNode)
                    /\ GraphEdge.target e = EId (GraphNode.id n))
    /\ App.isLoadingGraph st' = false
    /\ App.loadingNodeId st' = None.
Proof.
  intros Hnodes Hedges Hid Hroot st'.
  set (rootExp := generateExplanation rootExplanation).
  set (items := generateRelatedNodes children).
  set (src := set_explanation rootNode rootExp).
  set (g := mkGraphData [set_explanation n0 rootExp] []).
  assert (App.data st' = addToGraph g src items (env)) as Hdata.
  { subst st'. unfold handleSearch_settled. simpl.
    rewrite Hnodes, Hedges. simpl. unfold with_root_explanation.
    by rewrite bool_decide_eq_true_2. }
  assert (GraphNode.id src = "root-" +:+ suffix) as Hsrc by done.
  (* the first slot *)
  assert (nodes (addToGraph g src items env) !! 0%nat
          = Some (set_explanation n0 rootExp)) as Hfirst.
  { unfold addToGraph; simpl.
    eapply (forEach_keeps toLowerCase); [reflexivity | reflexivity |].
    intros Hempty. pose proof (generateExplanation_truthy rootExplanation) as Ht.
    unfold truthy_string in Ht. fold rootExp in Ht. rewrite Hempty in Ht.
    discriminate Ht. }
  destruct (nodes (addToGraph g src items env)) as [|first new] eqn:Hall; [done|].
  injection Hfirst as ->.
  exists new. rewrite Hdata, Hall.
  (* keys are distinct *)
  assert (NoDup (key <$> set_explanation n0 rootExp :: new)) as Hnd.
  { rewrite <- Hall. unfold addToGraph; simpl.
    apply (forEach_distinct toLowerCase);
      [apply initial_state_sound | apply initial_state_exact |].
    simpl. apply NoDup_singleton. }
  (* every node behind the root is a new node, with an id of its own kind *)
  assert (forall n, n ∈ new ->
            GraphNode.id n <> GraphNode.id src
            /\ exists it, it ∈ items /\ key n = item_key it) as Hnew.
  { intros n Hn.
    destruct (addToGraph_node_origin g src items env n) as
      [(m & Hm & Hsame) | (j & it & Hj & Hsame)].
    - rewrite Hall. by apply list_elem_of_further.
    - exfalso. apply list_elem_of_singleton in Hm. subst m.
      apply (same_but_explanation_key toLowerCase) in Hsame.
      rewrite fmap_cons in Hnd. apply NoDup_cons in Hnd as [Hnotin _].
      apply Hnotin. change (key (set_explanation n0 rootExp)) with (key n0).
      change (key (set_explanation n0 rootExp)) with (key n0) in Hsame.
      rewrite <- Hsame. by apply list_elem_of_fmap_2.
    - pose proof (same_but_explanation_id _ _ Hsame) as Hi.
      pose proof (same_but_explanation_key toLowerCase _ _ Hsame) as Hk.
      split.
      + rewrite Hi, Hsrc. intros Heq. symmetry in Heq.
        by apply root_vs_new_id in Heq.
      + exists it. split; [by eapply list_elem_of_lookup_2 | done]. }
  destruct (forEach_added toLowerCase src env items 0 (initial_state toLowerCase g)
              (initial_state_sound toLowerCase g)) as (extra & Hextra & _ & Hshape).
  assert (edges (addToGraph g src items env) = extra) as Hex
    by (unfold addToGraph; simpl; by rewrite Hextra).
  assert (Forall (fun e => GraphEdge.source e = EId (GraphNode.id rootNode)
                        /\ exists n, n ∈ new /\ GraphEdge.target e = EId (GraphNode.id n))
            extra) as Hstar.
  { eapply Forall_impl; [exact Hshape|].
    intros e (it & n & _ & Hn & _ & Hne & ->). simpl. split; [done|].
    exists n. split; [|done].
    change (nextNodes (forEach toLowerCase src env 0 items (initial_state toLowerCase g)))
      with (nodes (addToGraph g src items env)) in Hn.
    rewrite Hall in Hn. apply elem_of_cons in Hn as [->|Hn]; [|done].
    exfalso. apply Hne. simpl. done. }
  split; [done|]. split; [|split; [|split; [|done]]].
  - assert (length (nodes (addToGraph g src items env))
            = S (length (remove_dups (filter (fun k => k <> key n0) (item_key <$> items)))))
      as Hcount.
    { rewrite (addToGraph_count_general toLowerCase). simpl. do 3 f_equal.
      apply list_filter_iff. intros k. rewrite list_elem_of_singleton. done. }
    rewrite Hall in Hcount. simpl in Hcount. by injection Hcount.
  - by rewrite Hex.
  - intros n Hn. destruct (Hnew n Hn) as (Hne & it & Hit & Hk).
    destruct (forEach_links toLowerCase src env items 0 (initial_state toLowerCase g)
                (initial_state_sound toLowerCase g) it Hit) as (n' & Hn' & Hk' & Hjoin).
    change (nextNodes (forEach toLowerCase src env 0 items (initial_state toLowerCase g)))
      with (nodes (addToGraph g src items env)) in Hn'.
    change (nextEdges (forEach toLowerCase src env 0 items (initial_state toLowerCase g)))
      with (edges (addToGraph g src items env)) in Hjoin.
    rewrite Hall in Hn'.
    assert (n' = n) as ->.
    { eapply (NoDup_fmap_inj key); [exact Hnd | done | by apply list_elem_of_further |].
      congruence. }
    destruct (Hjoin Hne) as (e & He & Hj). exists e. split; [done|].
    rewrite Hex in He. eapply Forall_forall in Hstar as [Hs (m & _ & Ht)]; [|exact He].
    split; [done|].
    destruct Hj as [[_ Htgt]|[Hsrc' _]].
    + destruct (GraphEdge.target e) as [t|]; [|done]. simpl in Htgt. by subst t.
    + exfalso. rewrite Hs in Hsrc'. simpl in Hsrc'. by apply Hne.
Qed.


(** X21.  The answer to a search is merged even when a newer search has reset the
    graph in the meantime.  The root of the old search is then no node of
    the graph, and with at least one item in the answer the result has an
    edge from its id: the graph is left with an edge that names no node. *)
Theorem stale_search_answer_dangles rootNode suffix children rootExplanation env st :
  GraphNode.id rootNode = "root-" +:+ suffix ->
  GraphNode.id rootNode ∉ node_ids (nodes (App.data st)) ->
  generateRelatedNodes children <> [] ->
  let st' := handleSearch_settled rootNode children rootExplanation env st in
  (GraphNode.id rootNode ∉ node_ids (nodes (App.data st')))
  /\ (exists e, e ∈ edges (App.data st') /\ references e (GraphNode.id rootNode))
  /\ ~ edges_closed (nodes (App.data st')) (edges (App.data st')).
Proof.
  intros Hroot Hout Hitems st'.
  set (rootExp := generateExplanation rootExplanation).
  set (items := generateRelatedNodes children) in *.
  set (src := set_explanation rootNode rootExp).
  assert (App.data st' = addToGraph (App.data st) src items env) as Hdata.
  { subst st'. unfold handleSearch_settled. simpl.
    rewrite with_root_explanation_absent by done. by destruct (App.data st). }
  rewrite Hdata.
  assert (forall n, n ∈ nodes (addToGraph (App.data st) src items env) ->
            GraphNode.id n <> GraphNode.id src) as Hids.
  { intros n Hn.
    destruct (addToGraph_node_origin _ _ _ _ _ Hn) as
      [(m & Hm & Hsame) | (j & it & Hj & Hsame)];
      rewrite (same_but_explanation_id _ _ Hsame).
    - intros Heq. apply Hout. change (GraphNode.id src) with (GraphNode.id rootNode) in Heq.
      rewrite <- Heq. by apply list_elem_of_fmap_2.
    - change (GraphNode.id src) with (GraphNode.id rootNode). rewrite Hroot.
      intros Heq. symmetry in Heq. by apply root_vs_new_id in Heq. }
  assert (GraphNode.id rootNode
          ∉ node_ids (nodes (addToGraph (App.data st) src items env))) as Hout'.
  { intros Hin. apply list_elem_of_fmap in Hin as (n & Heq & Hn).
    by apply (Hids n Hn). }
  assert (exists e, e ∈ edges (addToGraph (App.data st) src items env)
                    /\ references e (GraphNode.id rootNode)) as (e & He & Href).
  { destruct items as [|it items'] eqn:Hi; [done|].
    destruct (forEach_links toLowerCase src env (it :: items') 0
                (initial_state toLowerCase (App.data st))
                (initial_state_sound toLowerCase (App.data st)) it
                (list_elem_of_here _ _)) as (n & Hn & _ & Hjoin).
    destruct (Hjoin (Hids n Hn)) as (e & He & Hj).
    exists e. split; [exact He|].
    destruct Hj as [[? _]|[_ ?]]; [by left | by right]. }
  split; [done|]. split; [by exists e|].
  intros Hcl. eapply Forall_forall in Hcl as [Hs Ht]; [|exact He].
  destruct Href as [Heq|Heq]; apply Hout'; by rewrite <- Heq.
Qed.

(** *** Clicks and the cached explanation *)

(** X22.  Once the explanation of a node object has been fetched, whatever the
    request gave, a later click on that object fetches nothing: it shows the
    cached text and no loading indicator. *)
Theorem explanation_fetched_once node res st st' :
  let node' := snd (handleNodeClick_settled node res st) in
  handleNodeClick_begin node' st'
  = (App.mk (App.data st') (Some (GraphNode.id node)) (App.loadingNodeId st')
       (Some (generateExplanation res)) (App.isLoadingGraph st') false
       (App.searchMode st'),
     false).
Proof.
  simpl. unfold handleNodeClick_begin. simpl.
  by rewrite generateExplanation_truthy.
Qed.

(** X23.  The text of a fetch is shown when the fetch settles, whichever node is
    active by then: after a click on [a] (not cached) and a click on [b], the
    answer for [a] replaces what the panel shows for [b] and clears the
    loading indicator, while [b] stays the active node. *)
Theorem late_explanation_is_shown a b res st :
  truthy_opt_string (GraphNode.explanation a) = false ->
  let st1 := fst (handleNodeClick_begin a st) in
  let st2 := fst (handleNodeClick_begin b st1) in
  let st3 := fst (handleNodeClick_settled a res st2) in
  snd (handleNodeClick_begin a st) = true
  /\ App.activeNodeId st3 = Some (GraphNode.id b)
  /\ App.explanation st3 = Some (generateExplanation res)
  /\ App.isLoadingExplanation st3 = false.
Proof.
  intros Ha. unfold handleNodeClick_begin.
  destruct (GraphNode.explanation a) as [ea|]; simpl in Ha; [rewrite Ha|];
    destruct (GraphNode.explanation b) as [eb|]; simpl;
    try destruct (truthy_string eb); simpl; done.
Qed.

End AppFacts.

(** *** On concrete inputs *)

Lemma failed_expansion_changes_nothing_witness :
  App.data (handleNodeLongPress_settled ascii_toLowerCase sample_parse octopus
              (Response (Some "not json")) sample_entropy (snd octopus_search))
  = App.data (snd octopus_search).
Proof.
  apply (failed_expansion_changes_nothing ascii_toLowerCase sample_parse octopus
           (Response (Some "not json")) sample_entropy (snd octopus_search)).
  right. left. reflexivity.
Defined.

Lemma search_answer_makes_star_witness :
  exists new,
    nodes (App.data (handleSearch_settled ascii_toLowerCase sample_parse
                       (fst octopus_search) (Response (Some "octopus-answer"))
                       (Response (Some "A mollusc.")) sample_entropy
                       (snd octopus_search)))
    = set_explanation (fst octopus_search) "A mollusc." :: new
    /\ length new = 2%nat.
Proof.
  destruct (search_answer_makes_star ascii_toLowerCase sample_parse
              (fst octopus_search) (fst octopus_search) "1700000000000"
              (Response (Some "octopus-answer")) (Response (Some "A mollusc."))
              sample_entropy (snd octopus_search)
              eq_refl eq_refl eq_refl eq_refl) as (new & Hnodes & Hlen & _).
  exists new. split; [exact Hnodes | exact Hlen].
Defined.

Lemma stale_search_answer_dangles_witness :
  ~ edges_closed
      (nodes (App.data (handleSearch_settled ascii_toLowerCase sample_parse
                          (fst octopus_search) (Response (Some "octopus-answer"))
                          (Response (Some "A mollusc.")) sample_entropy
                          (snd squid_search))))
      (edges (App.data (handleSearch_settled ascii_toLowerCase sample_parse
                          (fst octopus_search) (Response (Some "octopus-answer"))
                          (Response (Some "A mollusc.")) sample_entropy
                          (snd squid_search)))).
Proof.
  apply (stale_search_answer_dangles ascii_toLowerCase sample_parse
           (fst octopus_search) "1700000000000"
           (Response (Some "octopus-answer")) (Response (Some "A mollusc."))
           sample_entropy (snd squid_search)).
  - reflexivity.
  - by_evaluation.
  - discriminate.
Defined.

Lemma late_explanation_is_shown_witness :
  App.activeNodeId
    (fst (handleNodeClick_settled alpha (Response (Some "First letter."))
            (fst (handleNodeClick_begin octopus
                    (fst (handleNodeClick_begin alpha App_initial))))))
  = Some "root-1".
Proof.
  apply (late_explanation_is_shown alpha octopus (Response (Some "First letter."))
           App_initial).
  reflexivity.
Defined.

(** * The search form and the label of a node *)

Lemma append_cons c (s t : string) : String c s +:+ t = String c (s +:+ t).
Proof. reflexivity. Qed.

Lemma append_empty (t : string) : "" +:+ t = t.
Proof. reflexivity. Qed.

Lemma append_assoc (s t u : string) : (s +:+ t) +:+ u = s +:+ (t +:+ u).
Proof.
  induction s as [|c s IH]; [done|]. by rewrite !append_cons, IH.
Qed.

Section TrimFacts.

Variable WhiteSpace : ascii -> bool.

Local Abbreviation blank := (blank WhiteSpace).
Local Abbreviation trimStart := (trimStart WhiteSpace).
Local Abbreviation trimEnd := (trimEnd WhiteSpace).
Local Abbreviation trim := (trim WhiteSpace).
Local Abbreviation handleSubmit := (handleSubmit WhiteSpace).

Lemma trimStart_split s :
  exists pre, s = pre +:+ trimStart s /\ blank pre = true.
Proof.
  induction s as [|c s IH]; simpl.
  - by exists "".
  - destruct (WhiteSpace c) eqn:Hc.
    + destruct IH as (pre & Heq & Hpre). exists (String c pre). split.
      * change (String c s = String c (pre +:+ trimStart s)). by f_equal.
      * simpl. by rewrite Hc, Hpre.
    + by exists "".
Qed.

Lemma trimEnd_split s :
  exists post, s = trimEnd s +:+ post /\ blank post = true.
Proof.
  induction s as [|c s IH]; simpl.
  - by exists "".
  - destruct IH as (post & Heq & Hpost).
    destruct (trimEnd s) as [|c' s'] eqn:Ht.
    + destruct (WhiteSpace c) eqn:Hc.
      * exists (String c post). change ("" +:+ post) with post in Heq.
        split; [by rewrite Heq | simpl; by rewrite Hc, Hpost].
      * exists post. change ("" +:+ post) with post in Heq.
        split; [|done]. change (String c s = String c post). by f_equal.
    + exists post. split; [|done].
      change (String c s = String c (String c' s' +:+ post)). by f_equal.
Qed.

Lemma trimStart_blank s : trimStart s = "" <-> blank s = true.
Proof.
  induction s as [|c s IH]; simpl; [done|].
  destruct (WhiteSpace c); simpl; [exact IH | split; discriminate].
Qed.

Lemma trimEnd_blank s : trimEnd s = "" <-> blank s = true.
Proof.
  induction s as [|c s IH]; simpl; [done|].
  destruct (trimEnd s) as [|c' s'].
  - destruct (WhiteSpace c); simpl; [|split; discriminate].
    split; [intros _; by apply IH | done].
  - split; [discriminate|]. intros [_ Hb]%andb_true_iff.
    by apply IH in Hb.
Qed.

Lemma blank_app s1 s2 : blank (s1 +:+ s2) = blank s1 && blank s2.
Proof.
  induction s1 as [|c s1 IH]; [done|].
  rewrite append_cons. simpl. by rewrite IH, andb_assoc.
Qed.

(** The head of a trimmed string is no white space. *)
Lemma trimStart_head s c rest :
  trimStart s = String c rest -> WhiteSpace c = false.
Proof.
  induction s as [|c0 s IH]; simpl; [discriminate|].
  destruct (WhiteSpace c0) eqn:Hc; [exact IH|]. by intros [= <- _].
Qed.

Lemma trimEnd_head s c rest :
  trimEnd s = String c rest -> exists rest', s = String c rest'.
Proof.
  destruct s as [|c0 s]; simpl; [discriminate|].
  destruct (trimEnd s); [destruct (WhiteSpace c0); [discriminate|]|];
    intros [= <- _]; by eexists.
Qed.

Lemma trimEnd_idempotent s : trimEnd (trimEnd s) = trimEnd s.
Proof.
  induction s as [|c s IH]; simpl; [done|].
  destruct (trimEnd s) as [|c' s'] eqn:Ht.
  - destruct (WhiteSpace c) eqn:Hc; simpl; [done | by rewrite Hc].
  - simpl in *. by rewrite IH.
Qed.

Lemma trim_idempotent s : trim (trim s) = trim s.
Proof.
  unfold trim.
  destruct (trimEnd (trimStart s)) as [|c rest] eqn:Ht; [done|].
  destruct (trimEnd_head _ _ _ Ht) as [rest' Hs].
  pose proof (trimStart_head _ _ _ Hs) as Hc.
  assert (trimStart (String c rest) = String c rest) as -> by (simpl; by rewrite Hc).
  rewrite <- Ht. apply trimEnd_idempotent.
Qed.

(** X24.  [handleSubmit] starts no search for an input that is empty or all white
    space; for any other input it searches for the input without the white
    space around it: a term that is not empty, that [trim] leaves as it is,
    and that the input holds between two runs of white space. *)
Theorem handleSubmit_trims inputValue :
  match handleSubmit inputValue with
  | None => blank inputValue = true
  | Some term =>
      blank inputValue = false
      /\ term <> ""
      /\ trim term = term
      /\ exists pre post,
           inputValue = pre +:+ term +:+ post
           /\ blank pre = true /\ blank post = true
  end.
Proof.
  unfold handleSubmit, truthy_string.
  case_bool_decide as Hempty; simpl.
  - unfold trim in Hempty. apply trimEnd_blank in Hempty.
    destruct (trimStart_split inputValue) as (pre & Heq & Hpre).
    rewrite Heq, blank_app, Hpre, Hempty. done.
  - split; [|split; [done|split; [apply trim_idempotent|]]].
    + destruct (blank inputValue) eqn:Hb; [|done]. exfalso. apply Hempty.
      unfold trim. apply trimEnd_blank, trimStart_blank.
      destruct (trimStart_split inputValue) as (pre & Heq & Hpre).
      apply trimStart_blank in Hb. by rewrite Hb.
    + destruct (trimStart_split inputValue) as (pre & Heq & Hpre).
      destruct (trimEnd_split (trimStart inputValue)) as (post & Heq' & Hpost).
      exists pre, post. split; [|done]. unfold trim.
      by rewrite <- Heq', <- Heq.
Qed.

End TrimFacts.

(** On the ASCII white space. *)
Example handleSubmit_blank : handleSubmit ascii_WhiteSpace "   " = None.
Proof. reflexivity. Qed.

Example handleSubmit_padded :
  handleSubmit ascii_WhiteSpace "  Mimic Octopus " = Some "Mimic Octopus".
Proof. reflexivity. Qed.

Lemma join_words_app (ws1 ws2 : list string) :
  ws1 <> [] -> ws2 <> [] ->
  join_words (ws1 ++ ws2) = join_words ws1 +:+ " " +:+ join_words ws2.
Proof.
  intros H1 H2. induction ws1 as [|w ws1 IH]; [done|].
  destruct ws1 as [|w' ws1].
  - simpl. by destruct ws2.
  - change (join_words ((w :: w' :: ws1) ++ ws2))
      with (w +:+ " " +:+ join_words ((w' :: ws1) ++ ws2)).
    rewrite IH by done.
    change (join_words (w :: w' :: ws1)) with (w +:+ " " +:+ join_words (w' :: ws1)).
    by rewrite !append_assoc.
Qed.

(** X25.  A label of one word (or none) is drawn as it is.  A label of more words
    is drawn on two lines that hold all its words in their order: the first
    line has as many words as the second, or one more, and both lines joined
    by a space give back the words joined by spaces. *)
Theorem wrap_label_balanced (split_whitespace : string -> list string) (label : string) :
  match wrap_label split_whitespace label with
  | None => (length (split_whitespace label) <= 1)%nat
  | Some (line1, line2) =>
      exists ws1 ws2,
        split_whitespace label = ws1 ++ ws2
        /\ line1 = join_words ws1 /\ line2 = join_words ws2
        /\ (1 <= length ws2 <= length ws1)%nat
        /\ (length ws1 <= length ws2 + 1)%nat
        /\ line1 +:+ " " +:+ line2 = join_words (split_whitespace label)
  end.
Proof.
  unfold wrap_label. set (words := split_whitespace label).
  destruct (1 <? length words)%nat eqn:Hlen.
  - apply Nat.ltb_lt in Hlen.
    set (half := ((length words + 1) / 2)%nat).
    assert (length words + 1 = 2 * half + (length words + 1) mod 2)%nat as Hdiv
      by apply Nat.div_mod_eq.
    assert ((length words + 1) mod 2 < 2)%nat as Hmod by (apply Nat.mod_upper_bound; lia).
    exists (take half words), (drop half words).
    rewrite take_drop, length_take, length_drop.
    repeat split; try lia.
    rewrite <- join_words_app, take_drop; [done| |].
    + intros Hnil. apply (f_equal length) in Hnil. rewrite length_take in Hnil.
      simpl in Hnil. lia.
    + intros Hnil. apply (f_equal length) in Hnil. rewrite length_drop in Hnil.
      simpl in Hnil. lia.
  - apply Nat.ltb_ge in Hlen. exact Hlen.
Qed.
